(** * ssh-client: the exec state machine, the connection bootstrap and
    execScript, embedded from [src/index.ts].

  The client is event driven: every callback of [index.ts] runs to
  completion on the single JavaScript thread, so a callback is modelled as
  one atomic transformer of the variables it closes over, and an
  invocation's life is a list of events delivered to those callbacks. *)

From Stdlib Require Import ZArith List String Ascii Bool Lia DecimalString.
From stdpp Require Import base option list strings gmap.

Open Scope Z_scope.

(** ** JavaScript values used by [index.ts] *)

Module Js.

(** A line feed and a double quote, the two characters of the template
    literals that have no plain spelling in a string here. *)
Definition nl : string := String (ascii_of_nat 10) EmptyString.
Definition dq : string := String (ascii_of_nat 34) EmptyString.

(** [string | Buffer]: the two shapes of the [stdin] option. *)
Inductive Payload : Type :=
| Text (s : string)
| Buffer (bytes : list Byte.byte).

(** Errors constructed by the code: [new Error(msg)], the [TypeError] the
    runtime raises on a property read of [undefined], and
    [new VError(cause, msg)]. *)
Inductive Error : Type :=
| Err (message : string)
| TypeError (message : string)
| VError (cause : Error) (message : string).

(** Truthiness, as [cond ? a : b], [!x], [a && b] and [a || b] test it.
    Numbers are the integers the options and the transport carry
    (milliseconds, exit codes). *)
Definition truthy_number (n : Z) : bool := negb (n =? 0).

Definition truthy_opt_number (n : option Z) : bool :=
  match n with Some k => truthy_number k | None => false end.

Definition truthy_opt_bool (b : option bool) : bool :=
  match b with Some v => v | None => false end.

(** The empty string is falsy; an object, so every [Buffer], is truthy. *)
Definition truthy_payload (p : Payload) : bool :=
  match p with
  | Text s => negb (String.eqb s "")
  | Buffer _ => true
  end.

Definition truthy_opt_payload (p : option Payload) : bool :=
  match p with Some v => truthy_payload v | None => false end.

(** [`${n}`] for an integer, and for [number | null]. *)
Definition number_to_string (n : Z) : string :=
  NilZero.string_of_int (Z.to_int n).

Definition code_to_string (c : option Z) : string :=
  match c with Some n => number_to_string n | None => "null" end.

(** [code || 0]. *)
Definition or_zero (c : option Z) : Z :=
  match c with
  | Some n => if truthy_number n then n else 0
  | None => 0
  end.

(** [s.includes(sub)], as a proposition. *)
Definition includes (s sub : string) : Prop :=
  exists pre post : string, s = pre +:+ sub +:+ post.

End Js.

(** ** The result type of [exec] *)

Module ExecResult.
Record t : Type := mk { code : Z; stdout : string; stderr : string }.
End ExecResult.

(** ** [exec]: one command invocation *)

Module Exec.

(** The destructured second argument of [exec]. *)
Record Options : Type := mkOptions {
  stdin : option Js.Payload;
  timeout : option Z;
  throwOnNonZero : option bool
}.

(** A call of [resolve] or of [reject]. *)
Inductive Settlement : Type :=
| Resolve (result : ExecResult.t)
| Reject (err : Js.Error).

(** The value [setTimeout] returns; any such handle is truthy. *)
Variant TimerHandle : Type := Timer.

(** The channel object the transport hands to the [client.exec] callback. *)
Variant ClientChannel : Type := Channel.

(** The variables of one invocation, followed by the part of the
    environment its callbacks act on and the effects they leave. *)
Record Invocation : Type := mkInvocation {
  (* [let] variables of the promise executor *)
  stdout : string;
  stderr : string;
  settled : bool;
  timeoutId : option TimerHandle;
  (* [let stdinDone] of the [client.exec] callback; unread before it runs *)
  stdinDone : bool;
  (* the runtime's timer: [Some delay] while the timer is pending *)
  pendingTimer : option Z;
  (* the transport: the command handed to [client.exec], whether its
     callback ran, and the listeners the callback registered *)
  command : string;
  callbackRan : bool;
  stdoutListener : bool;
  stderrListener : bool;
  exitListener : bool;
  (* [channel.stdin.end(data, cb)]: the calls made, and whether [cb] is
     still to be called *)
  stdinEnded : list Js.Payload;
  stdinCallback : bool;
  (* calls of [resolve]/[reject], messages given to [log.debug], and
     exceptions that escaped a callback, oldest first *)
  settlements : list Settlement;
  debugLog : list string;
  uncaught : list Js.Error
}.

Definition with_stdout (v : string) (s : Invocation) : Invocation :=
  mkInvocation v (stderr s) (settled s) (timeoutId s) (stdinDone s)
    (pendingTimer s) (command s) (callbackRan s) (stdoutListener s)
    (stderrListener s) (exitListener s) (stdinEnded s) (stdinCallback s)
    (settlements s) (debugLog s) (uncaught s).

Definition with_stderr (v : string) (s : Invocation) : Invocation :=
  mkInvocation (stdout s) v (settled s) (timeoutId s) (stdinDone s)
    (pendingTimer s) (command s) (callbackRan s) (stdoutListener s)
    (stderrListener s) (exitListener s) (stdinEnded s) (stdinCallback s)
    (settlements s) (debugLog s) (uncaught s).

Definition with_settled (v : bool) (s : Invocation) : Invocation :=
  mkInvocation (stdout s) (stderr s) v (timeoutId s) (stdinDone s)
    (pendingTimer s) (command s) (callbackRan s) (stdoutListener s)
    (stderrListener s) (exitListener s) (stdinEnded s) (stdinCallback s)
    (settlements s) (debugLog s) (uncaught s).

Definition with_timeoutId (v : option TimerHandle) (s : Invocation) : Invocation :=
  mkInvocation (stdout s) (stderr s) (settled s) v (stdinDone s)
    (pendingTimer s) (command s) (callbackRan s) (stdoutListener s)
    (stderrListener s) (exitListener s) (stdinEnded s) (stdinCallback s)
    (settlements s) (debugLog s) (uncaught s).

Definition with_stdinDone (v : bool) (s : Invocation) : Invocation :=
  mkInvocation (stdout s) (stderr s) (settled s) (timeoutId s) v
    (pendingTimer s) (command s) (callbackRan s) (stdoutListener s)
    (stderrListener s) (exitListener s) (stdinEnded s) (stdinCallback s)
    (settlements s) (debugLog s) (uncaught s).

Definition with_pendingTimer (v : option Z) (s : Invocation) : Invocation :=
  mkInvocation (stdout s) (stderr s) (settled s) (timeoutId s) (stdinDone s)
    v (command s) (callbackRan s) (stdoutListener s)
    (stderrListener s) (exitListener s) (stdinEnded s) (stdinCallback s)
    (settlements s) (debugLog s) (uncaught s).

Definition with_callbackRan (v : bool) (s : Invocation) : Invocation :=
  mkInvocation (stdout s) (stderr s) (settled s) (timeoutId s) (stdinDone s)
    (pendingTimer s) (command s) v (stdoutListener s)
    (stderrListener s) (exitListener s) (stdinEnded s) (stdinCallback s)
    (settlements s) (debugLog s) (uncaught s).

Definition with_stdoutListener (v : bool) (s : Invocation) : Invocation :=
  mkInvocation (stdout s) (stderr s) (settled s) (timeoutId s) (stdinDone s)
    (pendingTimer s) (command s) (callbackRan s) v
    (stderrListener s) (exitListener s) (stdinEnded s) (stdinCallback s)
    (settlements s) (debugLog s) (uncaught s).

Definition with_stderrListener (v : bool) (s : Invocation) : Invocation :=
  mkInvocation (stdout s) (stderr s) (settled s) (timeoutId s) (stdinDone s)
    (pendingTimer s) (command s) (callbackRan s) (stdoutListener s)
    v (exitListener s) (stdinEnded s) (stdinCallback s)
    (settlements s) (debugLog s) (uncaught s).

Definition with_exitListener (v : bool) (s : Invocation) : Invocation :=
  mkInvocation (stdout s) (stderr s) (settled s) (timeoutId s) (stdinDone s)
    (pendingTimer s) (command s) (callbackRan s) (stdoutListener s)
    (stderrListener s) v (stdinEnded s) (stdinCallback s)
    (settlements s) (debugLog s) (uncaught s).

Definition with_stdinEnded (v : list Js.Payload) (s : Invocation) : Invocation :=
  mkInvocation (stdout s) (stderr s) (settled s) (timeoutId s) (stdinDone s)
    (pendingTimer s) (command s) (callbackRan s) (stdoutListener s)
    (stderrListener s) (exitListener s) v (stdinCallback s)
    (settlements s) (debugLog s) (uncaught s).

Definition with_stdinCallback (v : bool) (s : Invocation) : Invocation :=
  mkInvocation (stdout s) (stderr s) (settled s) (timeoutId s) (stdinDone s)
    (pendingTimer s) (command s) (callbackRan s) (stdoutListener s)
    (stderrListener s) (exitListener s) (stdinEnded s) v
    (settlements s) (debugLog s) (uncaught s).

Definition with_settlements (v : list Settlement) (s : Invocation) : Invocation :=
  mkInvocation (stdout s) (stderr s) (settled s) (timeoutId s) (stdinDone s)
    (pendingTimer s) (command s) (callbackRan s) (stdoutListener s)
    (stderrListener s) (exitListener s) (stdinEnded s) (stdinCallback s)
    v (debugLog s) (uncaught s).

Definition with_debugLog (v : list string) (s : Invocation) : Invocation :=
  mkInvocation (stdout s) (stderr s) (settled s) (timeoutId s) (stdinDone s)
    (pendingTimer s) (command s) (callbackRan s) (stdoutListener s)
    (stderrListener s) (exitListener s) (stdinEnded s) (stdinCallback s)
    (settlements s) v (uncaught s).

Definition with_uncaught (v : list Js.Error) (s : Invocation) : Invocation :=
  mkInvocation (stdout s) (stderr s) (settled s) (timeoutId s) (stdinDone s)
    (pendingTimer s) (command s) (callbackRan s) (stdoutListener s)
    (stderrListener s) (exitListener s) (stdinEnded s) (stdinCallback s)
    (settlements s) (debugLog s) v.

(** *** Callback bodies: state over [Invocation], with exceptions *)

Definition Body (A : Type) : Type := Invocation -> (Js.Error + A) * Invocation.

#[export] Instance Body_ret : MRet Body :=
  fun A (a : A) s => (inr a, s).

#[export] Instance Body_bind : MBind Body :=
  fun A B (k : A -> Body B) (m : Body A) s =>
    match m s with
    | (inl e, s') => (inl e, s')
    | (inr a, s') => k a s'
    end.

Definition throw {A : Type} (e : Js.Error) : Body A := fun s => (inl e, s).
Definition read {A : Type} (f : Invocation -> A) : Body A := fun s => (inr (f s), s).
Definition update (f : Invocation -> Invocation) : Body unit := fun s => (inr tt, f s).
Definition skip : Body unit := mret tt.

Definition resolve (r : ExecResult.t) : Body unit :=
  update (fun s => with_settlements (settlements s ++ [Resolve r]) s).

Definition reject (e : Js.Error) : Body unit :=
  update (fun s => with_settlements (settlements s ++ [Reject e]) s).

Definition log_debug (msg : string) : Body unit :=
  update (fun s => with_debugLog (debugLog s ++ [msg]) s).

(** [clearTimeout(id)]: the pending timer, if any, will not fire. *)
Definition clearTimeout (id : TimerHandle) : Body unit :=
  update (with_pendingTimer None).

(** [`exec timeout of ${timeout} ms expired`] *)
Definition timeout_message (t : Z) : string :=
  "exec timeout of " +:+ Js.number_to_string t +:+ " ms expired".

(** [resultInfo()], reading [stderr] and [stdout] when it is called. *)
Definition resultInfo (code : option Z) : Body string :=
  err ← read stderr;
  out ← read stdout;
  mret ("code: " +:+ Js.code_to_string code +:+ Js.nl +:+
        "stderr: " +:+ Js.dq +:+ err +:+ Js.dq +:+ Js.nl +:+
        "stdout: " +:+ Js.dq +:+ out +:+ Js.dq).

Definition premature_prefix : string :=
  "ssh command finished before stdin was written: ".
Definition finished_prefix : string := "ssh command finished: ".
Definition nonzero_prefix : string := "command exited with non-zero ".

(** The [setTimeout] callback (lines 81-88). *)
Definition onTimeout (t : Z) : Body unit :=
  done ← read settled;
  if negb done then
    update (with_settled true) ;;
    let msg := timeout_message t in
    log_debug msg ;;
    reject (Js.Err msg)
  else skip.

(** [stdout += data] and [stderr += data] (lines 94-99). *)
Definition onStdoutData (data : string) : Body unit :=
  update (fun s => with_stdout (stdout s +:+ data) s).

Definition onStderrData (data : string) : Body unit :=
  update (fun s => with_stderr (stderr s +:+ data) s).

(** The first statement of the [exit] listener (lines 102-105). *)
Definition cancelTimer : Body unit :=
  id ← read timeoutId;
  match id with
  | Some h => clearTimeout h ;; update (with_timeoutId None)
  | None => skip
  end.

(** The rest of the [exit] listener (lines 108-128). *)
Definition settleOnExit (o : Options) (code : option Z) : Body unit :=
  done ← read settled;
  if negb done then
    update (with_settled true) ;;
    flushed ← read stdinDone;
    if negb flushed then
      info ← resultInfo code;
      let msg := premature_prefix +:+ info in
      log_debug msg ;;
      reject (Js.Err msg)
    else
      info ← resultInfo code;
      log_debug (finished_prefix +:+ info) ;;
      if Js.truthy_opt_bool (throwOnNonZero o) && Js.truthy_opt_number code then
        info' ← resultInfo code;
        reject (Js.Err (nonzero_prefix +:+ info'))
      else
        out ← read stdout;
        err ← read stderr;
        resolve (ExecResult.mk (Js.or_zero code) out err)
  else skip.

(** The [exit] listener (lines 101-129). *)
Definition onExit (o : Options) (code : option Z) : Body unit :=
  cancelTimer ;; settleOnExit o code.

(** The callback given to [channel.stdin.end] (lines 131-133). *)
Definition onStdinEnd : Body unit := update (with_stdinDone true).

(** [channel.stderr], [channel.stdout], [channel.stdin]: a property read
    of [channel], which throws when [channel] is [undefined]. *)
Definition member (channel : option ClientChannel) (prop : string) : Body ClientChannel :=
  match channel with
  | Some c => mret c
  | None =>
      throw (Js.TypeError
               ("Cannot read property '" +:+ prop +:+ "' of undefined"))
  end.

(** The callback given to [client.exec] (lines 92-135). [err] is bound
    and not read. *)
Definition execCallback (o : Options)
    (err : option Js.Error) (channel : option ClientChannel) : Body unit :=
  member channel "stderr" ;;                       (* .setEncoding('utf-8') *)
  member channel "stdout" ;;
  update (with_stdoutListener true) ;;
  member channel "stderr" ;;
  update (with_stderrListener true) ;;
  update (with_stdinDone (negb (Js.truthy_opt_payload (stdin o)))) ;;
  update (with_exitListener true) ;;
  match stdin o with
  | Some data =>
      if Js.truthy_payload data then
        member channel "stdin" ;;
        update (fun s => with_stdinEnded (stdinEnded s ++ [data]) s) ;;
        update (with_stdinCallback true)
      else skip
  | None => skip
  end.

(** The promise executor (lines 77-90): the variables, the timer when
    [timeout] is truthy, and the request to the transport. *)
Definition executor (cmd : string) (o : Options) : Invocation :=
  let armed := Js.truthy_opt_number (timeout o) in
  {| stdout := ""; stderr := ""; settled := false;
     timeoutId := if armed then Some Timer else None;
     stdinDone := false;
     pendingTimer := if armed then timeout o else None;
     command := cmd; callbackRan := false;
     stdoutListener := false; stderrListener := false; exitListener := false;
     stdinEnded := []; stdinCallback := false;
     settlements := []; debugLog := []; uncaught := [] |}.

(** *** Event delivery *)

Inductive Event : Type :=
| TimerFires
| ExecCallback (err : option Js.Error) (channel : option ClientChannel)
| StdoutData (data : string)
| StderrData (data : string)
| Exit (code : option Z)
| StdinFlushed.

(** Run one callback to completion; an exception it throws escapes to the
    event loop. *)
Definition run_callback (b : Body unit) (s : Invocation) : Invocation :=
  match b s with
  | (inr _, s') => s'
  | (inl e, s') => with_uncaught (uncaught s' ++ [e]) s'
  end.

(** The event loop delivers an event to the callback registered for it, if
    there is one: a timer fires once and only while pending, the transport
    calls the [client.exec] callback once, a channel event reaches a
    listener only after [on] registered it, and the [stdin.end] callback is
    called once. *)
Definition deliver (o : Options) (s : Invocation) (ev : Event) : Invocation :=
  match ev with
  | TimerFires =>
      match pendingTimer s with
      | Some t => run_callback (onTimeout t) (with_pendingTimer None s)
      | None => s
      end
  | ExecCallback err channel =>
      if callbackRan s then s
      else run_callback (execCallback o err channel) (with_callbackRan true s)
  | StdoutData data =>
      if stdoutListener s then run_callback (onStdoutData data) s else s
  | StderrData data =>
      if stderrListener s then run_callback (onStderrData data) s else s
  | Exit code =>
      if exitListener s then run_callback (onExit o code) s else s
  | StdinFlushed =>
      if stdinCallback s
      then run_callback onStdinEnd (with_stdinCallback false s)
      else s
  end.

Definition run (o : Options) (s : Invocation) (evs : list Event) : Invocation :=
  fold_left (deliver o) evs s.

(** The body of [exec] from [new Promise] on, followed by the events
    delivered to it. *)
Definition exec (cmd : string) (o : Options) (evs : list Event) : Invocation :=
  run o (executor cmd o) evs.

(** *** Vocabulary for the properties of an invocation *)

Definition is_callback (ev : Event) : bool :=
  match ev with ExecCallback _ _ => true | _ => false end.

Definition is_flush (ev : Event) : bool :=
  match ev with StdinFlushed => true | _ => false end.

(** The chunks emitted on the output stream, and on the error stream. *)
Fixpoint stdout_chunks (evs : list Event) : list string :=
  match evs with
  | [] => []
  | StdoutData data :: rest => data :: stdout_chunks rest
  | _ :: rest => stdout_chunks rest
  end.

Fixpoint stderr_chunks (evs : list Event) : list string :=
  match evs with
  | [] => []
  | StderrData data :: rest => data :: stderr_chunks rest
  | _ :: rest => stderr_chunks rest
  end.

(** The states an invocation goes through, the first one included. *)
Fixpoint states (o : Options) (s : Invocation) (evs : list Event) : list Invocation :=
  s :: match evs with
       | [] => []
       | ev :: rest => states o (deliver o s ev) rest
       end.

(** How many times a flag goes from [false] to [true] along a history. *)
Fixpoint rises (flags : list bool) : nat :=
  match flags with
  | a :: (b :: _) as rest => ((if negb a && b then 1 else 0) + rises rest)%nat
  | _ => 0%nat
  end.

(** The three failures of [exec], told apart by the first words of their
    messages. *)
Definition is_timeout_failure (x : Settlement) : Prop :=
  exists t : Z, x = Reject (Js.Err (timeout_message t)).

Definition is_premature_exit (x : Settlement) : Prop :=
  exists info : string, x = Reject (Js.Err (premature_prefix +:+ info)).

Definition is_nonzero_exit (x : Settlement) : Prop :=
  exists info : string, x = Reject (Js.Err (nonzero_prefix +:+ info)).

(** What holds of every state an invocation reaches. *)
Record invariant (o : Options) (s : Invocation) : Prop := mkInvariant {
  inv_once : length (settlements s) = if settled s then 1%nat else 0%nat;
  inv_timer : forall t, pendingTimer s = Some t ->
    settled s = false /\ timeoutId s = Some Timer /\
    timeout o = Some t /\ Js.truthy_number t = true;
  inv_listeners :
    stdoutListener s = exitListener s /\ stderrListener s = exitListener s;
  inv_flag : exitListener s = true ->
    Js.truthy_opt_payload (stdin o) = false -> stdinDone s = true;
  inv_nowrite : Js.truthy_opt_payload (stdin o) = false ->
    stdinEnded s = [] /\ stdinCallback s = false;
  inv_premature : forall x, In x (settlements s) -> is_premature_exit x ->
    Js.truthy_opt_payload (stdin o) = true
}.

(** The concatenation of chunks, first chunk first. *)
Definition join (chunks : list string) : string :=
  fold_right String.append "" chunks.

(** The string [resultInfo()] returns in state [s]. *)
Definition info_of (c : option Z) (s : Invocation) : string :=
  "code: " +:+ Js.code_to_string c +:+ Js.nl +:+
  "stderr: " +:+ Js.dq +:+ stderr s +:+ Js.dq +:+ Js.nl +:+
  "stdout: " +:+ Js.dq +:+ stdout s +:+ Js.dq.

(** The state in which the [exit] listener takes its settlement decision. *)
Definition timer_cancelled (s : Invocation) : Invocation :=
  match timeoutId s with
  | Some _ => with_timeoutId None (with_pendingTimer None s)
  | None => s
  end.

(** Before the [client.exec] callback ran, and after it ran with a
    channel. *)
Definition unopened (s : Invocation) : Prop :=
  callbackRan s = false /\ exitListener s = false /\
  stdoutListener s = false /\ stderrListener s = false /\
  stdout s = "" /\ stderr s = "" /\
  stdinCallback s = false /\ stdinEnded s = [].

Definition listening (s : Invocation) : Prop :=
  callbackRan s = true /\ exitListener s = true /\
  stdoutListener s = true /\ stderrListener s = true.

(** After the callback threw: no listener, no [stdin.end] callback. *)
Definition deaf (s : Invocation) : Prop :=
  callbackRan s = true /\ exitListener s = false /\
  stdoutListener s = false /\ stderrListener s = false /\
  stdinCallback s = false.

Definition no_callback (evs : list Event) : bool :=
  forallb (fun ev => negb (is_callback ev)) evs.

Definition no_flush (evs : list Event) : bool :=
  forallb (fun ev => negb (is_flush ev)) evs.

(** A sample invocation: options, and a channel that opens, emits a chunk
    and acknowledges the stdin write. *)
Definition sample_options : Options :=
  mkOptions (Some (Js.Text "input")) (Some 100) (Some true).

Definition sample_open : list Event :=
  [ExecCallback None (Some Channel); StdoutData "a"; StdinFlushed].

End Exec.

(** ** [connect] and [connectIfNeeded]: the connection bootstrap *)

Module Client.

(** A call of [resolve] or of [reject] of a [connect()] promise. *)
Inductive Outcome : Type :=
| Resolved
| Rejected (err : Js.Error).

(** The client object. The closures [onReady] and [onError] of the n-th
    call of [connect] (counting from 0) are named by [n]; the transport's
    emitter keeps, per event, the listeners in registration order. *)
Record State : Type := mkState {
  connectStarted : bool;
  errorListeners : list nat;
  readyListeners : list nat;
  (* number of calls of [client.connect(this.config)] *)
  connectAttempts : nat;
  (* calls of [resolve]/[reject], by promise, and [log.debug] messages *)
  settlements : list (nat * Outcome);
  debugLog : list string
}.

(** [new SSHClient(config)] *)
Definition fresh : State :=
  {| connectStarted := false; errorListeners := []; readyListeners := [];
     connectAttempts := 0; settlements := []; debugLog := [] |}.

(** [emitter.removeListener(event, f)]: the most recently added instance
    of [f] is removed, if there is one. *)
Fixpoint removeListener (p : nat) (l : list nat) : list nat :=
  match l with
  | [] => []
  | q :: l' =>
      if bool_decide (p ∈ l') then q :: removeListener p l'
      else if bool_decide (q = p) then l'
      else q :: l'
  end.

Definition connect_failed : string := "SSH connect failed".

(** [onError] of promise [p] (lines 37-41); [onReady] is assigned before
    any event can be delivered, so the test of line 39 succeeds. *)
Definition onError (p : nat) (err : Js.Error) (s : State) : State :=
  {| connectStarted := connectStarted s;
     errorListeners := errorListeners s;
     readyListeners := removeListener p (readyListeners s);
     connectAttempts := connectAttempts s;
     settlements := settlements s ++ [(p, Rejected (Js.VError err connect_failed))];
     debugLog := debugLog s ++ ["connect() got error:"] |}.

(** [onReady] of promise [p] (lines 42-46). *)
Definition onReady (p : nat) (s : State) : State :=
  {| connectStarted := connectStarted s;
     errorListeners := removeListener p (errorListeners s);
     readyListeners := readyListeners s;
     connectAttempts := connectAttempts s;
     settlements := settlements s ++ [(p, Resolved)];
     debugLog := debugLog s ++ ["connect() got ready event"] |}.

(** A listener added with [once] removes itself, then runs. *)
Definition fireOnceError (err : Js.Error) (s : State) (p : nat) : State :=
  onError p err
    {| connectStarted := connectStarted s;
       errorListeners := removeListener p (errorListeners s);
       readyListeners := readyListeners s;
       connectAttempts := connectAttempts s;
       settlements := settlements s;
       debugLog := debugLog s |}.

Definition fireOnceReady (s : State) (p : nat) : State :=
  onReady p
    {| connectStarted := connectStarted s;
       errorListeners := errorListeners s;
       readyListeners := removeListener p (readyListeners s);
       connectAttempts := connectAttempts s;
       settlements := settlements s;
       debugLog := debugLog s |}.

(** [emit]: the listeners registered when the event is emitted are called
    in registration order. *)
Definition emitError (err : Js.Error) (s : State) : State :=
  fold_left (fireOnceError err) (errorListeners s) s.

Definition emitReady (s : State) : State :=
  fold_left fireOnceReady (readyListeners s) s.

(** [connect()] (lines 31-51): returns the promise it made. *)
Definition connect (s : State) : nat * State :=
  let p := connectAttempts s in
  (p, {| connectStarted := true;
         errorListeners := errorListeners s ++ [p];
         readyListeners := readyListeners s ++ [p];
         connectAttempts := S (connectAttempts s);
         settlements := settlements s;
         debugLog := debugLog s |}).

(** [connectIfNeeded()] (lines 53-55): returns the promise the caller
    awaits, if any. *)
Definition connectIfNeeded (s : State) : option nat * State :=
  if negb (connectStarted s)
  then let '(p, s') := connect s in (Some p, s')
  else (None, s).

(** What happens to a client: a caller invokes a method, whose synchronous
    part runs, or the transport emits an event. [exec] and [putFile] both
    start with [await this.connectIfNeeded()]. *)
Inductive Action : Type :=
| CallConnect
| CallExec
| CallPutFile
| EmitReady
| EmitError (err : Js.Error).

Definition act (s : State) (a : Action) : State :=
  match a with
  | CallConnect => snd (connect s)
  | CallExec => snd (connectIfNeeded s)
  | CallPutFile => snd (connectIfNeeded s)
  | EmitReady => emitReady s
  | EmitError err => emitError err s
  end.

Definition run (s : State) (acts : list Action) : State :=
  fold_left act acts s.

Definition is_transport_event (a : Action) : bool :=
  match a with EmitReady | EmitError _ => true | _ => false end.

Definition is_explicit_connect (a : Action) : bool :=
  match a with CallConnect => true | _ => false end.

Definition is_lazy_call (a : Action) : bool :=
  match a with CallExec | CallPutFile => true | _ => false end.

(** The calls of [resolve]/[reject] of promise [p], oldest first. *)
Definition outcomes (p : nat) (s : State) : list Outcome :=
  map snd (filter (fun x => fst x = p) (settlements s)).

(** The state an emit leaves when the same promises [l] listen on both
    events: every listener is gone and each promise got [outcome]. *)
Definition emitted (outcome : Outcome) (msg : string) (l : list nat)
    (s : State) : State :=
  {| connectStarted := connectStarted s;
     errorListeners := [];
     readyListeners := [];
     connectAttempts := connectAttempts s;
     settlements := settlements s ++ map (fun p => (p, outcome)) l;
     debugLog := debugLog s ++ map (fun _ => msg) l |}.

(** What holds of every state a client reaches: a promise listens on both
    events or on none, once; promises are numbered below the number of
    attempts; a promise that still listens has no outcome. *)
Record invariant (s : State) : Prop := mkInvariant {
  inv_same : errorListeners s = readyListeners s;
  inv_nodup : NoDup (readyListeners s);
  inv_listener_bound : forall p, p ∈ readyListeners s -> (p < connectAttempts s)%nat;
  inv_outcome_bound : forall p x, (p, x) ∈ settlements s -> (p < connectAttempts s)%nat;
  inv_pending : forall p x, p ∈ readyListeners s -> (p, x) ∉ settlements s
}.

(** Promise [p] was made and listens on neither event any more. *)
Definition retired (p : nat) (s : State) : Prop :=
  (p < connectAttempts s)%nat /\
  (p ∉ readyListeners s) /\ (p ∉ errorListeners s).

Definition no_transport_event (acts : list Action) : bool :=
  forallb (fun a => negb (is_transport_event a)) acts.

Definition no_explicit_connect (acts : list Action) : bool :=
  forallb (fun a => negb (is_explicit_connect a)) acts.

End Client.

(** ** [execScript] *)

Module Script.

(** Property values of an options object. *)
Inductive Value : Type :=
| Undefined
| Bool (b : bool)
| Number (n : Z)
| Str (s : string)
| Buf (bytes : list Byte.byte).

(** [obj.key]: a missing property reads as [undefined]. *)
Definition get (obj : gmap string Value) (key : string) : Value :=
  default Undefined (obj !! key).

Definition truthy (v : Value) : bool :=
  match v with
  | Undefined => false
  | Bool b => b
  | Number n => Js.truthy_number n
  | Str s => negb (String.eqb s "")
  | Buf _ => true
  end.

(** The declared type of [execScript]'s [options]. *)
Record Options : Type := mkOptions {
  sudo : option bool;
  timeout : option Z;
  throwOnNonZero : option bool
}.

(** The object literal a caller writes for [o]: one property per option
    that is given. *)
Definition to_object (o : Options) : gmap string Value :=
  let with_prop {A} (key : string) (inj : A -> Value) (v : option A)
                (obj : gmap string Value) : gmap string Value :=
    match v with Some x => <[key := inj x]> obj | None => obj end in
  with_prop "sudo" Bool (sudo o)
    (with_prop "timeout" Number (timeout o)
       (with_prop "throwOnNonZero" Bool (throwOnNonZero o) ∅)).

(** The parameter destructuring [{ stdin, timeout, throwOnNonZero }] of
    [exec], at the declared type of each option. *)
Definition exec_options (obj : gmap string Value) : Exec.Options :=
  {| Exec.stdin :=
       match get obj "stdin" with
       | Str s => Some (Js.Text s)
       | Buf b => Some (Js.Buffer b)
       | _ => None
       end;
     Exec.timeout :=
       match get obj "timeout" with Number n => Some n | _ => None end;
     Exec.throwOnNonZero :=
       match get obj "throwOnNonZero" with Bool b => Some b | _ => None end |}.

(** [execScript] (lines 141-154): [const { sudo, ...otherOptions } = options]
    and the call of [exec] with [{ ...otherOptions, stdin: script }]. *)
Definition execScript (script : string) (options : gmap string Value)
    (evs : list Exec.Event) : Exec.Invocation :=
  let sudo := get options "sudo" in
  let otherOptions := delete "sudo" options in
  Exec.exec ((if truthy sudo then "sudo " else "") +:+ "bash -s")
    (exec_options (<["stdin" := Str script]> otherOptions)) evs.

(** The spec's reading of executeScript: [execute] with the elevated or
    the plain shell command, the remaining options unchanged, and stdin
    fixed to the script body. *)
Definition executeScript_spec (script : string) (o : Options)
    (evs : list Exec.Event) : Exec.Invocation :=
  Exec.exec (match sudo o with Some true => "sudo bash -s" | _ => "bash -s" end)
    {| Exec.stdin := Some (Js.Text script);
       Exec.timeout := timeout o;
       Exec.throwOnNonZero := throwOnNonZero o |} evs.

End Script.

(** ** More vocabulary for the properties of an invocation *)

Module ExecKinds.

(** What a settlement can be, given the options: a result, whose code is 0
    when [throwOnNonZero] is set; or one of the three failures, each only
    with the option that enables it. *)
Definition permitted (o : Exec.Options) (x : Exec.Settlement) : Prop :=
  match x with
  | Exec.Resolve r =>
      Js.truthy_opt_bool (Exec.throwOnNonZero o) = true -> ExecResult.code r = 0
  | Exec.Reject _ =>
      (Exec.is_timeout_failure x /\ Js.truthy_opt_number (Exec.timeout o) = true) \/
      (Exec.is_premature_exit x /\ Js.truthy_opt_payload (Exec.stdin o) = true) \/
      (Exec.is_nonzero_exit x /\ Exec.throwOnNonZero o = Some true)
  end.

(** Events other than the timer firing and the process exiting. *)
Definition is_quiet (ev : Exec.Event) : bool :=
  match ev with
  | Exec.TimerFires | Exec.Exit _ => false
  | _ => true
  end.

(** After the callback threw, with timeout [t] configured: the timer is
    pending and nothing is settled, or it fired and the one settlement is
    the timeout failure. *)
Definition stranded (t : Z) (s : Exec.Invocation) : Prop :=
  Exec.callbackRan s = true /\ Exec.exitListener s = false /\
  Exec.stdoutListener s = false /\ Exec.stderrListener s = false /\
  Exec.stdinCallback s = false /\
  ((Exec.pendingTimer s = Some t /\ Exec.settled s = false /\
    Exec.settlements s = []) \/
   (Exec.pendingTimer s = None /\ Exec.settled s = true /\
    Exec.settlements s = [Exec.Reject (Js.Err (Exec.timeout_message t))])).

End ExecKinds.

(** ** [exec], [putFile] and [close] on a client: the awaits *)

Module Session.

(** A promise is settled by the first call of [resolve] or [reject]. *)
Definition promise_state (p : nat) (c : Client.State) : option Client.Outcome :=
  head (Client.outcomes p c).

(** A call of [exec]: suspended at [await this.connectIfNeeded()] (line 73)
    on the promise of [connect()], past it with its invocation made, or
    rejected with the error of the failed attempt. *)
Inductive ExecCall : Type :=
| AwaitsConnect (p : nat)
| Invoked (inv : Exec.Invocation)
| ConnectRejected (err : Js.Error).

(** [exec(cmd, o)] up to its suspension. When [connectIfNeeded] awaits
    nothing, the rest of [exec] runs before any event is delivered. *)
Definition exec_begin (cmd : string) (o : Exec.Options) (c : Client.State)
    : ExecCall * Client.State :=
  match Client.connectIfNeeded c with
  | (Some p, c') => (AwaitsConnect p, c')
  | (None, c') => (Invoked (Exec.executor cmd o), c')
  end.

(** The continuation of a suspended call, in client state [c]. *)
Definition exec_resume (cmd : string) (o : Exec.Options) (call : ExecCall)
    (c : Client.State) : ExecCall :=
  match call with
  | AwaitsConnect p =>
      match promise_state p c with
      | Some Client.Resolved => Invoked (Exec.executor cmd o)
      | Some (Client.Rejected err) => ConnectRejected err
      | None => call
      end
  | _ => call
  end.

(** The object the transport hands to the [client.sftp] callback. *)
Variant SFTPWrapper : Type := Sftp.

(** Where a call of [putFile] stands: at one of its three awaits (lines
    157, 159, 160), or settled. *)
Inductive PutPhase : Type :=
| PutAwaitsConnect (p : nat)
| PutAwaitsSftp
| PutAwaitsFastPut
| PutResolved
| PutRejected (err : Js.Error).

(** A call of [putFile], with the calls it made of [client.sftp] and of
    [sftp.fastPut(localPath, remotePath, cb)]. *)
Record PutFile : Type := mkPutFile {
  phase : PutPhase;
  sftpCalls : nat;
  fastPutCalls : list (string * string)
}.

(** The callbacks [promisify] hands to [client.sftp] and to
    [sftp.fastPut]. *)
Inductive PutEvent : Type :=
| SftpCallback (err : option Js.Error) (sftp : option SFTPWrapper)
| FastPutCallback (err : option Js.Error).

(** [promisify(client.sftp.bind(client))()] (line 159). *)
Definition request_sftp : PutFile :=
  {| phase := PutAwaitsSftp; sftpCalls := 1; fastPutCalls := [] |}.

(** [putFile(localPath, remotePath)] up to its suspension. *)
Definition putFile_begin (c : Client.State) : PutFile * Client.State :=
  match Client.connectIfNeeded c with
  | (Some p, c') =>
      ({| phase := PutAwaitsConnect p; sftpCalls := 0; fastPutCalls := [] |}, c')
  | (None, c') => (request_sftp, c')
  end.

(** The continuation of a call suspended on [connect()]. *)
Definition putFile_resume (f : PutFile) (c : Client.State) : PutFile :=
  match phase f with
  | PutAwaitsConnect p =>
      match promise_state p c with
      | Some Client.Resolved => request_sftp
      | Some (Client.Rejected err) =>
          {| phase := PutRejected err; sftpCalls := sftpCalls f;
             fastPutCalls := fastPutCalls f |}
      | None => f
      end
  | _ => f
  end.

(** A callback reaches the call that awaits it. A promisified call is
    rejected with a truthy [err] and resolved with the value otherwise;
    [sftp.fastPut] is a property read of [sftp], which throws when [sftp]
    is [undefined]. *)
Definition putFile_deliver (localPath remotePath : string)
    (f : PutFile) (ev : PutEvent) : PutFile :=
  let settle (ph : PutPhase) : PutFile :=
    {| phase := ph; sftpCalls := sftpCalls f; fastPutCalls := fastPutCalls f |} in
  match phase f, ev with
  | PutAwaitsSftp, SftpCallback (Some err) _ => settle (PutRejected err)
  | PutAwaitsSftp, SftpCallback None (Some _) =>
      {| phase := PutAwaitsFastPut; sftpCalls := sftpCalls f;
         fastPutCalls := fastPutCalls f ++ [(localPath, remotePath)] |}
  | PutAwaitsSftp, SftpCallback None None =>
      settle (PutRejected
                (Js.TypeError "Cannot read property 'fastPut' of undefined"))
  | PutAwaitsFastPut, FastPutCallback (Some err) => settle (PutRejected err)
  | PutAwaitsFastPut, FastPutCallback None => settle PutResolved
  | _, _ => f
  end.

Definition putFile_run (localPath remotePath : string)
    (f : PutFile) (evs : list PutEvent) : PutFile :=
  fold_left (putFile_deliver localPath remotePath) evs f.

Definition is_sftp_callback (ev : PutEvent) : bool :=
  match ev with SftpCallback _ _ => true | _ => false end.

Definition is_fastPut_callback (ev : PutEvent) : bool :=
  match ev with FastPutCallback _ => true | _ => false end.

Definition put_settled (f : PutFile) : bool :=
  match phase f with PutResolved | PutRejected _ => true | _ => false end.

(** The client with [close()] (lines 57-59): [this.client.end()], counted. *)
Record State : Type := mkState {
  client : Client.State;
  endCalls : nat
}.

Inductive Action : Type :=
| OnClient (a : Client.Action)
| CallClose.

Definition fresh : State := {| client := Client.fresh; endCalls := 0 |}.

Definition act (s : State) (a : Action) : State :=
  match a with
  | OnClient a' => {| client := Client.act (client s) a'; endCalls := endCalls s |}
  | CallClose => {| client := client s; endCalls := S (endCalls s) |}
  end.

Definition run (s : State) (acts : list Action) : State :=
  fold_left act acts s.

(** The calls of [connect()] in a history, and whether [exec] or [putFile]
    is called in it before any [connect()]. *)
Fixpoint explicit_connects (acts : list Action) : nat :=
  match acts with
  | [] => 0
  | OnClient Client.CallConnect :: rest => S (explicit_connects rest)
  | _ :: rest => explicit_connects rest
  end.

Fixpoint lazy_call_first (acts : list Action) : bool :=
  match acts with
  | [] => false
  | OnClient Client.CallConnect :: _ => false
  | OnClient Client.CallExec :: _ => true
  | OnClient Client.CallPutFile :: _ => true
  | _ :: rest => lazy_call_first rest
  end.

End Session.

(** * Properties of [exec] *)

Section ExecFacts.
Import Exec.

Ltac body :=
  cbv [deliver run_callback onTimeout onExit cancelTimer settleOnExit
       onStdoutData onStderrData onStdinEnd execCallback member resultInfo
       mbind mret Body_bind Body_ret read update skip throw resolve reject
       log_debug clearTimeout].

Ltac split_state s := destruct s; cbn in *; subst.

Lemma run_app o s evs1 evs2 :
  run o s (evs1 ++ evs2) = run o (run o s evs1) evs2.
Proof. apply fold_left_app. Qed.

Lemma run_cons o s ev evs : run o s (ev :: evs) = run o (deliver o s ev) evs.
Proof. reflexivity. Qed.

Lemma onExit_cancels_first o c s :
  run_callback (onExit o c) s = run_callback (settleOnExit o c) (timer_cancelled s).
Proof.
  unfold timer_cancelled. body. destruct (timeoutId s); reflexivity.
Qed.

Lemma onTimeout_unsettled t s :
  settled s = false ->
  run_callback (onTimeout t) s =
  with_settlements (settlements s ++ [Reject (Js.Err (timeout_message t))])
    (with_debugLog (debugLog s ++ [timeout_message t]) (with_settled true s)).
Proof. intros H. body. rewrite H. reflexivity. Qed.

Lemma onTimeout_settled t s :
  settled s = true -> run_callback (onTimeout t) s = s.
Proof. intros H. body. rewrite H. reflexivity. Qed.

Lemma settleOnExit_settled o c s :
  settled s = true -> run_callback (settleOnExit o c) s = s.
Proof. intros H. body. rewrite H. reflexivity. Qed.

(** Once the flag is set, no event settles or logs again. *)
Lemma deliver_settled o s ev :
  settled s = true ->
  settled (deliver o s ev) = true /\
  settlements (deliver o s ev) = settlements s /\
  debugLog (deliver o s ev) = debugLog s.
Proof.
  intros H. destruct ev; split_state s; body; cbn.
  - destruct pendingTimer0; auto.
  - destruct callbackRan0; auto.
    destruct channel; cbn; auto.
    destruct (stdin o) as [data|]; cbn; auto.
    destruct (Js.truthy_payload data); cbn; auto.
  - destruct stdoutListener0; auto.
  - destruct stderrListener0; auto.
  - destruct exitListener0; auto. destruct timeoutId0; auto.
  - destruct stdinCallback0; auto.
Qed.

Lemma run_settled o evs : forall s,
  settled s = true ->
  settled (run o s evs) = true /\
  settlements (run o s evs) = settlements s /\
  debugLog (run o s evs) = debugLog s.
Proof.
  induction evs as [|ev evs IH]; intros s H; [auto|].
  rewrite run_cons.
  destruct (deliver_settled o s ev H) as (H1 & H2 & H3).
  destruct (IH _ H1) as (H4 & H5 & H6).
  rewrite H4, H5, H6; auto.
Qed.

(** The three failure messages start with different letters. *)
Lemma timeout_not_premature t :
  ~ is_premature_exit (Reject (Js.Err (timeout_message t))).
Proof. intros [info E]. discriminate E. Qed.

Lemma nonzero_not_premature info :
  ~ is_premature_exit (Reject (Js.Err (nonzero_prefix +:+ info))).
Proof. intros [info' E]. discriminate E. Qed.

Lemma resolve_not_premature r : ~ is_premature_exit (Resolve r).
Proof. intros [info E]. discriminate E. Qed.

Lemma timeout_not_nonzero t :
  ~ is_nonzero_exit (Reject (Js.Err (timeout_message t))).
Proof. intros [info E]. discriminate E. Qed.

Lemma premature_not_nonzero info :
  ~ is_nonzero_exit (Reject (Js.Err (premature_prefix +:+ info))).
Proof. intros [info' E]. discriminate E. Qed.

Lemma premature_not_timeout info :
  ~ is_timeout_failure (Reject (Js.Err (premature_prefix +:+ info))).
Proof. intros [t E]. discriminate E. Qed.

Lemma nonzero_not_timeout info :
  ~ is_timeout_failure (Reject (Js.Err (nonzero_prefix +:+ info))).
Proof. intros [t E]. discriminate E. Qed.

Lemma executor_invariant cmd o : invariant o (executor cmd o).
Proof.
  unfold executor. split; cbn; auto.
  - intros t. destruct (timeout o) as [k|]; cbn; [|discriminate].
    destruct (Js.truthy_number k) eqn:E; [|discriminate].
    intros [= <-]. auto.
Qed.

Lemma deliver_invariant o s ev : invariant o s -> invariant o (deliver o s ev).
Proof.
  intros [I1 I2 [I3 I3'] I4 I5 I6].
  destruct ev; split_state s.
  - (* TimerFires *)
    destruct pendingTimer0 as [t|]; [|split; auto].
    destruct (I2 t eq_refl) as (-> & -> & Ht & Htt).
    body; cbn. destruct settlements0; [|discriminate].
    split; cbn; auto; try discriminate.
    intros x [<-|[]] Hx. now apply timeout_not_premature in Hx.
  - (* ExecCallback *)
    destruct callbackRan0; [split; auto|].
    body; cbn.
    destruct channel as [ch|]; cbn; [|split; auto].
    unfold Js.truthy_opt_payload in *.
    destruct (stdin o) as [data|] eqn:Ein; cbn in *.
    + destruct (Js.truthy_payload data) eqn:Etr; cbn; split; cbn;
        rewrite ?Ein; cbn; rewrite ?Etr; auto; try (intros; congruence).
    + split; cbn; rewrite ?Ein; auto.
  - (* StdoutData *)
    destruct exitListener0; body; cbn; split; auto.
  - (* StderrData *)
    destruct exitListener0; body; cbn; split; auto.
  - (* Exit *)
    destruct exitListener0; [|split; auto].
    rewrite onExit_cancels_first. unfold timer_cancelled; cbn.
    assert (Hs : settled0 = false -> settlements0 = [])
      by (intros ->; now destruct settlements0).
    destruct settled0.
    + destruct timeoutId0; rewrite settleOnExit_settled by reflexivity;
        split; cbn; auto; discriminate.
    + rewrite (Hs eq_refl) in *. clear Hs.
      destruct (Js.truthy_opt_payload (stdin o)) eqn:Et;
      destruct timeoutId0; body; cbn;
        (destruct stdinDone0 eqn:Ed; cbn;
         [ destruct (Js.truthy_opt_bool (throwOnNonZero o) && Js.truthy_opt_number code); cbn
         | ]);
        split; cbn; rewrite ?Et; auto; try discriminate;
        try (intros; congruence);
        try (intros x [<-|[]] Hx;
             solve [ now apply nonzero_not_premature in Hx
                   | now apply resolve_not_premature in Hx ]);
        try (specialize (I4 eq_refl eq_refl); discriminate);
        try (intros t' Ht'; destruct (I2 t' Ht') as (_ & ? & _); discriminate).
  - (* StdinFlushed *)
    destruct stdinCallback0; [|split; auto].
    body; cbn. split; cbn; auto.
    intros Hf. destruct (I5 Hf); discriminate.
Qed.

Lemma run_invariant o evs : forall s, invariant o s -> invariant o (run o s evs).
Proof.
  induction evs as [|ev evs IH]; intros s H; [exact H|].
  rewrite run_cons. apply IH, deliver_invariant, H.
Qed.

Lemma exec_invariant cmd o evs : invariant o (exec cmd o evs).
Proof. apply run_invariant, executor_invariant. Qed.

(** *** Strings *)

Lemma append_cons (ch : ascii) (a b : string) :
  String ch a +:+ b = String ch (a +:+ b).
Proof. reflexivity. Qed.

Lemma append_assoc (a b c : string) : (a +:+ b) +:+ c = a +:+ (b +:+ c).
Proof.
  induction a as [|ch a IH]; [reflexivity|].
  rewrite !append_cons. now f_equal.
Qed.

Lemma append_nil_r (a : string) : a +:+ "" = a.
Proof.
  induction a as [|ch a IH]; [reflexivity|].
  rewrite append_cons. now f_equal.
Qed.

Lemma includes_middle (pre sub post : string) :
  Js.includes (pre +:+ sub +:+ post) sub.
Proof. now exists pre, post. Qed.

(** *** The completion flag along a history *)

Lemma states_unfold o s evs :
  exists rest, states o s evs = s :: rest.
Proof. destruct evs; cbn; eauto. Qed.

Lemma rises_cons (a b : bool) (l : list bool) :
  rises (a :: b :: l) = ((if negb a && b then 1 else 0) + rises (b :: l))%nat.
Proof. reflexivity. Qed.

Lemma rises_settled o evs : forall s,
  settled s = true -> rises (map settled (states o s evs)) = 0%nat.
Proof.
  induction evs as [|ev evs IH]; intros s H; [reflexivity|].
  destruct (deliver_settled o s ev H) as (H1 & _).
  specialize (IH _ H1). cbn [states].
  destruct (states_unfold o (deliver o s ev) evs) as [rest E].
  rewrite E in *. rewrite !map_cons, rises_cons, <- !map_cons, IH, H.
  reflexivity.
Qed.

Lemma rises_at_most_once o evs : forall s,
  (rises (map settled (states o s evs)) <= 1)%nat.
Proof.
  induction evs as [|ev evs IH]; intros s; [cbn; lia|].
  cbn [states].
  pose proof (IH (deliver o s ev)) as IH'.
  pose proof (rises_settled o evs (deliver o s ev)) as Hz.
  destruct (states_unfold o (deliver o s ev) evs) as [rest E].
  rewrite E in *. rewrite !map_cons, rises_cons, <- !map_cons.
  destruct (settled s); cbn [negb andb]; [lia|].
  destruct (settled (deliver o s ev)); cbn [negb andb]; [|lia].
  rewrite Hz by reflexivity. lia.
Qed.

(** *** The timer *)

Lemma deliver_timer_gone o s ev :
  pendingTimer s = None -> pendingTimer (deliver o s ev) = None.
Proof.
  intros H. destruct ev; split_state s; body; cbn; auto.
  - destruct callbackRan0; auto.
    destruct channel; cbn; auto.
    destruct (stdin o) as [data|]; cbn; auto.
    destruct (Js.truthy_payload data); cbn; auto.
  - destruct stdoutListener0; auto.
  - destruct stderrListener0; auto.
  - destruct exitListener0; auto.
    destruct timeoutId0, settled0; cbn; auto;
      destruct stdinDone0; cbn; auto;
      destruct (Js.truthy_opt_bool (throwOnNonZero o) && Js.truthy_opt_number code);
      cbn; auto.
  - destruct stdinCallback0; auto.
Qed.

Lemma run_timer_gone o evs : forall s,
  pendingTimer s = None -> pendingTimer (run o s evs) = None.
Proof.
  induction evs as [|ev evs IH]; intros s H; [exact H|].
  rewrite run_cons. apply IH, deliver_timer_gone, H.
Qed.

Lemma timer_cancelled_gone o s :
  invariant o s -> pendingTimer (timer_cancelled s) = None.
Proof.
  intros I. unfold timer_cancelled.
  destruct (timeoutId s) eqn:E; [reflexivity|].
  destruct (pendingTimer s) as [t|] eqn:Ep; [|reflexivity].
  destruct (inv_timer o s I t Ep) as (_ & H & _). congruence.
Qed.

Lemma settleOnExit_timer o c s :
  pendingTimer (run_callback (settleOnExit o c) s) = pendingTimer s.
Proof.
  split_state s; body; cbn. destruct settled0; cbn; auto.
  destruct stdinDone0; cbn; auto.
  destruct (Js.truthy_opt_bool (throwOnNonZero o) && Js.truthy_opt_number c);
    cbn; auto.
Qed.

(** *** The [exit] listener's decision, case by case *)

Lemma exit_premature o c s :
  exitListener s = true -> settled s = false -> stdinDone s = false ->
  settled (deliver o s (Exit c)) = true /\
  settlements (deliver o s (Exit c)) =
    settlements s ++ [Reject (Js.Err (premature_prefix +:+ info_of c s))].
Proof.
  intros H1 H2 H3. split_state s. body. cbn.
  destruct timeoutId0; cbn; auto.
Qed.

Lemma exit_nonzero o c s :
  exitListener s = true -> settled s = false -> stdinDone s = true ->
  (Js.truthy_opt_bool (throwOnNonZero o) && Js.truthy_opt_number c) = true ->
  settled (deliver o s (Exit c)) = true /\
  settlements (deliver o s (Exit c)) =
    settlements s ++ [Reject (Js.Err (nonzero_prefix +:+ info_of c s))].
Proof.
  intros H1 H2 H3 H4. split_state s. body. cbn.
  destruct timeoutId0; cbn; rewrite H4; cbn; auto.
Qed.

Lemma exit_success o c s :
  exitListener s = true -> settled s = false -> stdinDone s = true ->
  (Js.truthy_opt_bool (throwOnNonZero o) && Js.truthy_opt_number c) = false ->
  settled (deliver o s (Exit c)) = true /\
  settlements (deliver o s (Exit c)) =
    settlements s ++ [Resolve (ExecResult.mk (Js.or_zero c) (stdout s) (stderr s))].
Proof.
  intros H1 H2 H3 H4. split_state s. body. cbn.
  destruct timeoutId0; cbn; rewrite H4; cbn; auto.
Qed.

Lemma unsettled_nothing o s :
  invariant o s -> settled s = false -> settlements s = [].
Proof.
  intros I H. pose proof (inv_once o s I) as L. rewrite H in L.
  now destruct (settlements s).
Qed.

(** *** Before and after the [client.exec] callback *)

Lemma deliver_unopened o s ev :
  unopened s -> is_callback ev = false -> unopened (deliver o s ev).
Proof.
  intros (H1 & H2 & H3 & H4 & H5 & H6 & H7 & H8) Hev. unfold unopened.
  destruct ev; try discriminate; split_state s; auto 10.
  destruct pendingTimer0; auto 10. body; cbn. destruct settled0; cbn; auto 10.
Qed.

Lemma run_unopened o evs : forall s,
  unopened s -> no_callback evs = true ->
  unopened (run o s evs).
Proof.
  induction evs as [|ev evs IH]; intros s H Hevs; [exact H|].
  cbn in Hevs. apply andb_true_iff in Hevs as [Hev Hevs].
  rewrite run_cons. apply IH; [|exact Hevs].
  apply deliver_unopened; [exact H|]. now destruct (is_callback ev).
Qed.

Lemma executor_unopened cmd o : unopened (executor cmd o).
Proof. unfold unopened, executor; cbn; tauto. Qed.

(** The callback, handed a channel, on a state it has not run in. *)
Lemma callback_opens o err ch s :
  unopened s ->
  let s' := deliver o s (ExecCallback err (Some ch)) in
  listening s' /\ stdout s' = "" /\ stderr s' = "" /\
  settled s' = settled s /\ settlements s' = settlements s /\
  stdinDone s' = negb (Js.truthy_opt_payload (stdin o)) /\
  stdinEnded s' =
    match stdin o with
    | Some data => if Js.truthy_payload data then [data] else []
    | None => []
    end.
Proof.
  intros (H1 & H2 & H3 & H4 & H5 & H6 & H7 & H8). unfold listening.
  split_state s. body; cbn.
  destruct (stdin o) as [data|]; cbn; [|tauto].
  destruct (Js.truthy_payload data); cbn; tauto.
Qed.

Lemma deliver_listening o s ev :
  listening s ->
  listening (deliver o s ev) /\
  stdout (deliver o s ev) =
    stdout s +:+ join (stdout_chunks [ev]) /\
  stderr (deliver o s ev) =
    stderr s +:+ join (stderr_chunks [ev]) /\
  (is_flush ev = false -> stdinDone (deliver o s ev) = stdinDone s) /\
  stdinEnded (deliver o s ev) = stdinEnded s.
Proof.
  intros (H1 & H2 & H3 & H4). unfold listening.
  destruct ev; split_state s; body; cbn; rewrite ?append_nil_r; auto 10.
  - destruct pendingTimer0; cbn; auto 10. destruct settled0; cbn; auto 10.
  - destruct timeoutId0, settled0; cbn; auto 10;
      destruct stdinDone0; cbn; auto 10;
      destruct (Js.truthy_opt_bool (throwOnNonZero o) && Js.truthy_opt_number code);
      cbn; auto 10.
  - destruct stdinCallback0; cbn; auto 10. repeat split; auto; discriminate.
Qed.

Lemma stdout_chunks_cons ev evs :
  join (stdout_chunks (ev :: evs)) =
  join (stdout_chunks [ev]) +:+ join (stdout_chunks evs).
Proof. destruct ev; cbn; rewrite ?append_nil_r; reflexivity. Qed.

Lemma stderr_chunks_cons ev evs :
  join (stderr_chunks (ev :: evs)) =
  join (stderr_chunks [ev]) +:+ join (stderr_chunks evs).
Proof. destruct ev; cbn; rewrite ?append_nil_r; reflexivity. Qed.

Lemma run_listening o evs : forall s,
  listening s ->
  listening (run o s evs) /\
  stdout (run o s evs) = stdout s +:+ join (stdout_chunks evs) /\
  stderr (run o s evs) = stderr s +:+ join (stderr_chunks evs) /\
  (no_flush evs = true ->
   stdinDone (run o s evs) = stdinDone s) /\
  stdinEnded (run o s evs) = stdinEnded s.
Proof.
  induction evs as [|ev evs IH]; intros s H.
  - cbn. rewrite !append_nil_r. auto.
  - rewrite run_cons.
    destruct (deliver_listening o s ev H) as (L & Ho & He & Hd & Hw).
    destruct (IH _ L) as (L' & Ho' & He' & Hd' & Hw').
    rewrite Ho', He', Ho, He, Hw', Hw, !append_assoc,
      <- stdout_chunks_cons, <- stderr_chunks_cons.
    repeat split; try apply L'.
    cbn [forallb]. intros [Hf Hfs]%andb_true_iff.
    rewrite Hd' by exact Hfs. apply Hd. now destruct (is_flush ev).
Qed.

(** An invocation whose channel opened: the events before the callback,
    the callback with its channel, and the events after it. *)
Lemma exec_opened cmd o pre err ch mid :
  no_callback pre = true ->
  let s := exec cmd o (pre ++ ExecCallback err (Some ch) :: mid) in
  listening s /\
  stdout s = join (stdout_chunks mid) /\
  stderr s = join (stderr_chunks mid) /\
  (no_flush mid = true ->
   stdinDone s = negb (Js.truthy_opt_payload (stdin o))).
Proof.
  intros Hpre. unfold exec. rewrite run_app, run_cons.
  pose proof (run_unopened o pre _ (executor_unopened cmd o) Hpre) as U.
  destruct (callback_opens o err ch _ U) as (L & Ho & He & _ & _ & Hd & _).
  destruct (run_listening o mid _ L) as (L' & Ho' & He' & Hd' & _).
  rewrite Ho, He in *. cbn in Ho', He'.
  repeat split; try apply L'; auto.
  intros Hf. now rewrite Hd'.
Qed.

Lemma deliver_exitListener o s ev :
  exitListener s = true -> exitListener (deliver o s ev) = true.
Proof.
  intros H. destruct ev; split_state s; body; cbn; auto.
  - destruct pendingTimer0; cbn; auto. destruct settled0; cbn; auto.
  - destruct callbackRan0; auto.
    destruct channel; cbn; auto.
    destruct (stdin o) as [data|]; cbn; auto.
    destruct (Js.truthy_payload data); cbn; auto.
  - destruct stdoutListener0; auto.
  - destruct stderrListener0; auto.
  - destruct timeoutId0, settled0; cbn; auto;
      destruct stdinDone0; cbn; auto;
      destruct (Js.truthy_opt_bool (throwOnNonZero o) && Js.truthy_opt_number code);
      cbn; auto.
  - destruct stdinCallback0; auto.
Qed.

Lemma exit_settles o c s :
  exitListener s = true -> settled (deliver o s (Exit c)) = true.
Proof.
  intros H. destruct (settled s) eqn:Hs.
  - now apply deliver_settled.
  - destruct (stdinDone s) eqn:Hd.
    + destruct (Js.truthy_opt_bool (throwOnNonZero o) && Js.truthy_opt_number c) eqn:Hn.
      * now apply exit_nonzero.
      * now apply exit_success.
    + now apply exit_premature.
Qed.

Lemma timer_settles o s :
  is_Some (pendingTimer s) -> settled (deliver o s TimerFires) = true.
Proof.
  intros [t Ht]. split_state s. body; cbn. destruct settled0; reflexivity.
Qed.

Lemma settled_once o s :
  invariant o s -> settled s = true -> length (settlements s) = 1%nat.
Proof. intros I H. pose proof (inv_once o s I) as L. now rewrite H in L. Qed.

Lemma settles_for_good o s ev post :
  invariant o s -> settled (deliver o s ev) = true ->
  length (settlements (run o s (ev :: post))) = 1%nat.
Proof.
  intros I H. rewrite run_cons.
  apply (settled_once o).
  - apply run_invariant, deliver_invariant, I.
  - now apply run_settled.
Qed.

(** C1. For every invocation and every list of events delivered to it:
    the completion flag [settled] goes from false to true at most once;
    [resolve]/[reject] are called once when the flag is set and not at all
    while it is not; after an exit event reached the exit listener, or
    after the pending timer fired, exactly one call has been made, whatever
    follows, and so in both orders of a timer firing and an exit event; the
    timeout handler and the exit handler leave a settled invocation's
    settlements alone, and each sets the flag when it settles. *)
Theorem exec_settles_exactly_once (cmd : string) (o : Options) (evs : list Event) :
  let s := exec cmd o evs in
  (rises (map settled (states o (executor cmd o) evs)) <= 1)%nat /\
  length (settlements s) = (if settled s then 1 else 0)%nat /\
  (forall c post, exitListener s = true ->
     length (settlements (exec cmd o (evs ++ Exit c :: post))) = 1%nat) /\
  (forall post, is_Some (pendingTimer s) ->
     length (settlements (exec cmd o (evs ++ TimerFires :: post))) = 1%nat) /\
  (forall c, exitListener s = true ->
     length (settlements (exec cmd o (evs ++ [TimerFires; Exit c]))) = 1%nat /\
     length (settlements (exec cmd o (evs ++ [Exit c; TimerFires]))) = 1%nat) /\
  (forall t c, settled s = true ->
     run_callback (onTimeout t) s = s /\
     settlements (run_callback (onExit o c) s) = settlements s /\
     settled (run_callback (onExit o c) s) = true) /\
  (forall t c, settled s = false -> exitListener s = true ->
     settled (run_callback (onTimeout t) s) = true /\
     length (settlements (run_callback (onTimeout t) s)) = 1%nat /\
     settled (run_callback (onExit o c) s) = true /\
     length (settlements (run_callback (onExit o c) s)) = 1%nat).
Proof.
  intros s. pose proof (exec_invariant cmd o evs) as I. fold s in I.
  assert (Hexit : forall c post, exitListener s = true ->
            length (settlements (exec cmd o (evs ++ Exit c :: post))) = 1%nat).
  { intros c post H. unfold exec. rewrite run_app.
    apply settles_for_good; [exact I | now apply exit_settles]. }
  repeat split.
  - apply rises_at_most_once.
  - apply (inv_once o s I).
  - exact Hexit.
  - intros post H. unfold exec. rewrite run_app.
    apply settles_for_good; [exact I | now apply timer_settles].
  - unfold exec. rewrite (run_app o _ evs [TimerFires; Exit c]).
    change (run o (run o (executor cmd o) evs) [TimerFires; Exit c])
      with (run o (deliver o s TimerFires) [Exit c]).
    apply settles_for_good; [apply deliver_invariant, I|].
    now apply exit_settles, deliver_exitListener.
  - now apply Hexit.
  - now apply onTimeout_settled.
  - rewrite onExit_cancels_first, settleOnExit_settled;
      unfold timer_cancelled; now destruct (timeoutId s).
  - rewrite onExit_cancels_first, settleOnExit_settled;
      unfold timer_cancelled; now destruct (timeoutId s).
  - rewrite onTimeout_unsettled by assumption. reflexivity.
  - rewrite onTimeout_unsettled by assumption. cbn.
    rewrite (unsettled_nothing o s I) by assumption. reflexivity.
  - pose proof (exit_settles o c s H0) as E.
    unfold deliver in E. now rewrite H0 in E.
  - pose proof (exit_settles o c s H0) as E.
    pose proof (deliver_invariant o s (Exit c) I) as I'.
    apply (settled_once o) in I'; [|exact E].
    unfold deliver in I'. now rewrite H0 in I'.
Qed.

Lemma exec_settles_exactly_once_witness :
  length (settlements
            (exec "ls" sample_options (sample_open ++ [TimerFires; Exit (Some 0)]))) = 1%nat /\
  length (settlements
            (exec "ls" sample_options (sample_open ++ [Exit (Some 0); TimerFires]))) = 1%nat.
Proof.
  destruct (exec_settles_exactly_once "ls" sample_options sample_open)
    as (_ & _ & _ & _ & H & _).
  apply (H (Some 0)). reflexivity.
Defined.

Lemma exit_decides_after_cancel o c s :
  exitListener s = true ->
  deliver o s (Exit c) = run_callback (settleOnExit o c) (timer_cancelled s).
Proof. intros H. unfold deliver. rewrite H. apply onExit_cancels_first. Qed.

Lemma timer_noop o s : pendingTimer s = None -> deliver o s TimerFires = s.
Proof. intros H. unfold deliver. now rewrite H. Qed.

Lemma timeout_reports_delay t :
  Js.includes (timeout_message t) (Js.number_to_string t).
Proof. apply includes_middle. Qed.

(** What the exit listener settles with is no timeout failure. *)
Lemma exit_no_timeout_failure o c s :
  invariant o s -> exitListener s = true -> settled s = false ->
  forall x, In x (settlements (deliver o s (Exit c))) -> ~ is_timeout_failure x.
Proof.
  intros I H Hs x. pose proof (unsettled_nothing o s I Hs) as E.
  destruct (stdinDone s) eqn:Hd.
  - destruct (Js.truthy_opt_bool (throwOnNonZero o) && Js.truthy_opt_number c) eqn:Hn.
    + destruct (exit_nonzero o c s H Hs Hd Hn) as (_ & ->). rewrite E.
      intros [<-|[]]. apply nonzero_not_timeout.
    + destruct (exit_success o c s H Hs Hd Hn) as (_ & ->). rewrite E.
      intros [<-|[]] [t Ht]. discriminate Ht.
  - destruct (exit_premature o c s H Hs Hd) as (_ & ->). rewrite E.
    intros [<-|[]]. apply premature_not_timeout.
Qed.

(** C2. With a timeout configured: when the timer fires, the invocation is
    not yet settled and is rejected with the timeout error, whose message
    reports the delay; an exit event delivered at any later point leaves
    the settlements, the flag and the debug log as they are. When instead
    an exit event arrives while the timer is pending, the listener takes
    its decision in a state where the timer is already cancelled; the timer
    never fires afterwards and no timeout failure is ever reported. *)
Theorem exec_timeout_takes_priority
    (cmd : string) (o : Options) (evs : list Event) (t : Z) :
  timeout o = Some t -> Js.truthy_number t = true ->
  let s := exec cmd o evs in
  is_Some (pendingTimer s) ->
  (settled s = false /\
   let s1 := deliver o s TimerFires in
   settlements s1 = [Reject (Js.Err (timeout_message t))] /\
   Js.includes (timeout_message t) (Js.number_to_string t) /\
   forall post c,
     let s2 := run o s1 post in
     settlements (deliver o s2 (Exit c)) = [Reject (Js.Err (timeout_message t))] /\
     settled (deliver o s2 (Exit c)) = true /\
     debugLog (deliver o s2 (Exit c)) = debugLog s2) /\
  (forall c, exitListener s = true ->
     let s1 := deliver o s (Exit c) in
     s1 = run_callback (settleOnExit o c)
            (with_timeoutId None (with_pendingTimer None s)) /\
     (forall post, pendingTimer (run o s1 post) = None) /\
     (forall post, run o s1 (TimerFires :: post) = run o s1 post) /\
     (forall post x, In x (settlements (run o s1 post)) -> ~ is_timeout_failure x)).
Proof.
  intros Ht Htr s [t' Hp].
  pose proof (exec_invariant cmd o evs) as I. fold s in I.
  destruct (inv_timer o s I t' Hp) as (Hs & Hid & Ht' & _).
  assert (t' = t) as -> by congruence.
  pose proof (unsettled_nothing o s I Hs) as E.
  assert (H1 : settlements (deliver o s TimerFires) =
               [Reject (Js.Err (timeout_message t))]).
  { unfold deliver. rewrite Hp, onTimeout_unsettled by exact Hs.
    cbn. now rewrite E. }
  split; [split; [exact Hs|]|].
  - cbn zeta. split; [exact H1|]. split; [apply timeout_reports_delay|].
    intros post c.
    assert (Hst : settled (deliver o s TimerFires) = true)
      by (apply timer_settles; eauto).
    destruct (run_settled o post _ Hst) as (Ha & Hb & _).
    destruct (deliver_settled o _ (Exit c) Ha) as (Hc & Hd & He).
    cbn zeta. rewrite Hd, Hb, H1. auto.
  - intros c Hl. cbn zeta.
    assert (Hg : pendingTimer (deliver o s (Exit c)) = None).
    { rewrite exit_decides_after_cancel by exact Hl.
      rewrite settleOnExit_timer. now apply (timer_cancelled_gone o). }
    split; [|split; [|split]].
    + rewrite exit_decides_after_cancel by exact Hl.
      unfold timer_cancelled. now rewrite Hid.
    + intros post. now apply run_timer_gone.
    + intros post. rewrite run_cons. now rewrite timer_noop.
    + intros post x.
      destruct (run_settled o post _ (exit_settles o c s Hl)) as (_ & -> & _).
      now apply exit_no_timeout_failure.
Qed.

Lemma exec_timeout_takes_priority_witness :
  let s := exec "ls" sample_options sample_open in
  settled s = false /\
  settlements (deliver sample_options s TimerFires) =
    [Reject (Js.Err (timeout_message 100))].
Proof.
  assert (P : is_Some (pendingTimer (exec "ls" sample_options sample_open)))
    by (exists 100; vm_compute; reflexivity).
  destruct (exec_timeout_takes_priority "ls" sample_options sample_open 100
              eq_refl eq_refl P) as [(H1 & H2 & _) _].
  split; [exact H1 | exact H2].
Defined.

Lemma or_zero_spec (c : option Z) :
  Js.or_zero c = match c with Some n => n | None => 0 end.
Proof.
  destruct c as [n|]; [|reflexivity]. unfold Js.or_zero, Js.truthy_number.
  destruct (Z.eqb_spec n 0); cbn; congruence.
Qed.

(** C3, as amended. An invocation whose channel opened, and which receives
    an exit event while unsettled, with stdin falsy or already flushed and
    the non-zero-exit failure not triggered, calls [resolve] once, with the
    exit code (0 for [null]) and the concatenations of the chunks emitted
    on the output stream and on the error stream before the exit event;
    chunks emitted after the exit event are not part of the result, which
    nothing delivered later changes. In particular so does a command that
    exits with code 0 and was given no stdin. *)
Theorem exec_resolves_with_accumulated_output
    (cmd : string) (o : Options) (pre mid : list Event)
    (err : option Js.Error) (ch : ClientChannel) :
  no_callback pre = true ->
  let s := exec cmd o (pre ++ ExecCallback err (Some ch) :: mid) in
  settled s = false ->
  (forall c,
     Js.truthy_opt_payload (stdin o) = false \/ stdinDone s = true ->
     (Js.truthy_opt_bool (throwOnNonZero o) && Js.truthy_opt_number c) = false ->
     forall post,
       settlements (run o s (Exit c :: post)) =
         [Resolve {| ExecResult.code := match c with Some n => n | None => 0 end;
                     ExecResult.stdout := join (stdout_chunks mid);
                     ExecResult.stderr := join (stderr_chunks mid) |}]) /\
  (stdin o = None ->
   forall post,
     settlements (run o s (Exit (Some 0) :: post)) =
       [Resolve {| ExecResult.code := 0;
                   ExecResult.stdout := join (stdout_chunks mid);
                   ExecResult.stderr := join (stderr_chunks mid) |}]).
Proof.
  intros Hpre s Hs.
  pose proof (exec_invariant cmd o (pre ++ ExecCallback err (Some ch) :: mid)) as I.
  fold s in I.
  destruct (exec_opened cmd o pre err ch mid Hpre) as (L & Ho & He & _).
  fold s in L, Ho, He. destruct L as (_ & Hl & _).
  assert (G : forall c,
    Js.truthy_opt_payload (stdin o) = false \/ stdinDone s = true ->
    (Js.truthy_opt_bool (throwOnNonZero o) && Js.truthy_opt_number c) = false ->
    forall post,
      settlements (run o s (Exit c :: post)) =
        [Resolve {| ExecResult.code := match c with Some n => n | None => 0 end;
                    ExecResult.stdout := join (stdout_chunks mid);
                    ExecResult.stderr := join (stderr_chunks mid) |}]).
  { intros c Hin Hn post.
    assert (Hd : stdinDone s = true).
    { destruct Hin as [Hf|Hd]; [|exact Hd]. now apply (inv_flag o s I). }
    destruct (exit_success o c s Hl Hs Hd Hn) as (Hst & Hx).
    rewrite run_cons.
    destruct (run_settled o post _ Hst) as (_ & -> & _).
    rewrite Hx, (unsettled_nothing o s I Hs), Ho, He, or_zero_spec.
    reflexivity. }
  split; [exact G|].
  intros Hnone post. apply (G (Some 0)).
  - left. now rewrite Hnone.
  - apply andb_false_r.
Qed.

Lemma exec_resolves_with_accumulated_output_witness :
  let o := mkOptions None None None in
  let mid := [StdoutData "hel"; StderrData "warn"; StdoutData "lo"] in
  let s := exec "echo hello" o ([] ++ ExecCallback None (Some Channel) :: mid) in
  settlements (run o s [Exit (Some 0)]) =
    [Resolve {| ExecResult.code := 0;
                ExecResult.stdout := join (stdout_chunks mid);
                ExecResult.stderr := join (stderr_chunks mid) |}].
Proof.
  intros o mid s.
  assert (U : settled s = false) by (vm_compute; reflexivity).
  destruct (exec_resolves_with_accumulated_output "echo hello" o [] mid
              None Channel eq_refl U) as [_ H].
  exact (H eq_refl []).
Defined.

(** C3 as first stated does not hold: the result is not the concatenation
    of all the chunks emitted. A chunk emitted after the exit event is
    accumulated, and is missing from the result. *)
Lemma exec_result_misses_chunks_after_exit :
  let o := mkOptions None None None in
  let evs := [ExecCallback None (Some Channel); StdoutData "a";
              Exit (Some 0); StdoutData "b"] in
  join (stdout_chunks evs) = "ab" /\
  stdout (exec "ls" o evs) = "ab" /\
  settlements (exec "ls" o evs) =
    [Resolve {| ExecResult.code := 0; ExecResult.stdout := "a";
                ExecResult.stderr := "" |}] /\
  settlements (exec "ls" o evs) <>
    [Resolve {| ExecResult.code := 0;
                ExecResult.stdout := join (stdout_chunks evs);
                ExecResult.stderr := join (stderr_chunks evs) |}].
Proof.
  vm_compute. repeat split. intros H. discriminate H.
Qed.

(** C6. When stdin was supplied (a truthy payload) and the exit event
    arrives before the [stdin.end] callback was called, on an unsettled
    invocation, [reject] is called once with the premature-exit error,
    whatever the exit code, 0 included; its message is neither the timeout
    nor the non-zero-exit message. *)
Theorem exec_premature_exit_rejects
    (cmd : string) (o : Options) (pre mid : list Event)
    (err : option Js.Error) (ch : ClientChannel) (c : option Z) :
  Js.truthy_opt_payload (stdin o) = true ->
  no_callback pre = true ->
  no_flush mid = true ->
  let s := exec cmd o (pre ++ ExecCallback err (Some ch) :: mid) in
  settled s = false ->
  let failure := Reject (Js.Err (premature_prefix +:+ info_of c s)) in
  (forall post, settlements (run o s (Exit c :: post)) = [failure]) /\
  settlements (run o s [Exit (Some 0)]) =
    [Reject (Js.Err (premature_prefix +:+ info_of (Some 0) s))] /\
  is_premature_exit failure /\
  ~ is_timeout_failure failure /\
  ~ is_nonzero_exit failure.
Proof.
  intros Hin Hpre Hmid s Hs.
  pose proof (exec_invariant cmd o (pre ++ ExecCallback err (Some ch) :: mid)) as I.
  fold s in I.
  destruct (exec_opened cmd o pre err ch mid Hpre) as ((_ & Hl & _) & _ & _ & Hd).
  fold s in Hl, Hd. specialize (Hd Hmid). rewrite Hin in Hd. cbn in Hd.
  assert (G : forall c' post,
            settlements (run o s (Exit c' :: post)) =
            [Reject (Js.Err (premature_prefix +:+ info_of c' s))]).
  { intros c' post. rewrite run_cons.
    destruct (exit_premature o c' s Hl Hs Hd) as (Hst & Hx).
    destruct (run_settled o post _ Hst) as (_ & -> & _).
    now rewrite Hx, (unsettled_nothing o s I Hs). }
  cbn zeta. repeat split.
  - apply G.
  - apply G.
  - now exists (info_of c s).
  - apply premature_not_timeout.
  - apply premature_not_nonzero.
Qed.

Lemma exec_premature_exit_rejects_witness :
  let o := mkOptions (Some (Js.Text "input")) None None in
  let s := exec "cat" o ([] ++ ExecCallback None (Some Channel) :: [StdoutData "x"]) in
  settlements (run o s [Exit (Some 0)]) =
    [Reject (Js.Err (premature_prefix +:+ info_of (Some 0) s))].
Proof.
  intros o s.
  assert (U : settled s = false) by (vm_compute; reflexivity).
  exact (proj1 (proj2
           (exec_premature_exit_rejects "cat" o [] [StdoutData "x"] None Channel
              (Some 0) eq_refl eq_refl eq_refl U))).
Defined.

(** C7. When the process exits with a code [n] other than 0 on an
    unsettled invocation whose stdin is flushed: with [throwOnNonZero]
    true, [reject] is called once with an error whose message includes
    [n], the accumulated stdout and the accumulated stderr; with
    [throwOnNonZero] false or absent, [resolve] is called once with code
    [n] and the accumulated output. *)
Theorem exec_nonzero_exit
    (cmd : string) (o : Options) (evs : list Event) (n : Z) :
  let s := exec cmd o evs in
  exitListener s = true -> settled s = false -> stdinDone s = true ->
  n <> 0 ->
  (throwOnNonZero o = Some true ->
   exists msg,
     (forall post,
        settlements (run o s (Exit (Some n) :: post)) = [Reject (Js.Err msg)]) /\
     Js.includes msg (Js.number_to_string n) /\
     Js.includes msg (stdout s) /\
     Js.includes msg (stderr s)) /\
  (throwOnNonZero o = Some false \/ throwOnNonZero o = None ->
   forall post,
     settlements (run o s (Exit (Some n) :: post)) =
       [Resolve {| ExecResult.code := n;
                   ExecResult.stdout := stdout s;
                   ExecResult.stderr := stderr s |}]).
Proof.
  intros s Hl Hs Hd Hn.
  pose proof (exec_invariant cmd o evs) as I. fold s in I.
  assert (Htn : Js.truthy_opt_number (Some n) = true).
  { cbn. unfold Js.truthy_number. now destruct (Z.eqb_spec n 0). }
  split.
  - intros Ht.
    assert (Hc : (Js.truthy_opt_bool (throwOnNonZero o) &&
                  Js.truthy_opt_number (Some n)) = true)
      by (rewrite Ht, Htn; reflexivity).
    destruct (exit_nonzero o (Some n) s Hl Hs Hd Hc) as (Hst & Hx).
    exists (nonzero_prefix +:+ info_of (Some n) s). repeat split.
    + intros post. rewrite run_cons.
      destruct (run_settled o post _ Hst) as (_ & -> & _).
      now rewrite Hx, (unsettled_nothing o s I Hs).
    + exists (nonzero_prefix +:+ "code: "),
        (Js.nl +:+ "stderr: " +:+ Js.dq +:+ stderr s +:+ Js.dq +:+ Js.nl +:+
         "stdout: " +:+ Js.dq +:+ stdout s +:+ Js.dq).
      unfold info_of. cbn [Js.code_to_string]. now rewrite !append_assoc.
    + exists (nonzero_prefix +:+ "code: " +:+ Js.code_to_string (Some n) +:+ Js.nl +:+
              "stderr: " +:+ Js.dq +:+ stderr s +:+ Js.dq +:+ Js.nl +:+
              "stdout: " +:+ Js.dq), Js.dq.
      unfold info_of. now rewrite !append_assoc.
    + exists (nonzero_prefix +:+ "code: " +:+ Js.code_to_string (Some n) +:+ Js.nl +:+
              "stderr: " +:+ Js.dq),
        (Js.dq +:+ Js.nl +:+ "stdout: " +:+ Js.dq +:+ stdout s +:+ Js.dq).
      unfold info_of. now rewrite !append_assoc.
  - intros Ht post.
    assert (Hc : (Js.truthy_opt_bool (throwOnNonZero o) &&
                  Js.truthy_opt_number (Some n)) = false)
      by (destruct Ht as [-> | ->]; reflexivity).
    destruct (exit_success o (Some n) s Hl Hs Hd Hc) as (Hst & Hx).
    rewrite run_cons.
    destruct (run_settled o post _ Hst) as (_ & -> & _).
    rewrite Hx, (unsettled_nothing o s I Hs), or_zero_spec. reflexivity.
Qed.

Lemma exec_nonzero_exit_witness :
  let o := mkOptions None None None in
  let s := exec "exit 7" o [ExecCallback None (Some Channel); StderrData "no"] in
  settlements (run o s [Exit (Some 7)]) =
    [Resolve {| ExecResult.code := 7;
                ExecResult.stdout := stdout s;
                ExecResult.stderr := stderr s |}].
Proof.
  intros o s.
  assert (L : exitListener s = true) by (vm_compute; reflexivity).
  assert (U : settled s = false) by (vm_compute; reflexivity).
  assert (D : stdinDone s = true) by (vm_compute; reflexivity).
  assert (N : 7 <> 0) by lia.
  exact (proj2 (exec_nonzero_exit "exit 7" o _ 7 L U D N) (or_intror eq_refl) []).
Defined.

Lemma deliver_falsy_stdin o s ev :
  Js.truthy_opt_payload (stdin o) = false ->
  deliver o s ev = deliver (mkOptions None (timeout o) (throwOnNonZero o)) s ev.
Proof.
  intros H. destruct ev; try reflexivity.
  unfold deliver. destruct (callbackRan s); [reflexivity|].
  destruct channel as [ch|]; [|reflexivity].
  body. cbn. destruct (stdin o) as [data|]; [|reflexivity].
  cbn in H. cbn. rewrite H. reflexivity.
Qed.

Lemma run_falsy_stdin o evs : forall s,
  Js.truthy_opt_payload (stdin o) = false ->
  run o s evs = run (mkOptions None (timeout o) (throwOnNonZero o)) s evs.
Proof.
  induction evs as [|ev evs IH]; intros s H; [reflexivity|].
  rewrite !run_cons, <- deliver_falsy_stdin by exact H. now apply IH.
Qed.

(** C10. With a falsy [stdin] option (the empty string included) an
    invocation goes through the same states, settlements and effects as
    with [stdin] absent; [channel.stdin.end] is never called, so nothing
    is written and the stream is not closed; once the exit listener is
    registered the stdin-done flag is true; and no premature-exit failure
    is ever reported. *)
Theorem exec_falsy_stdin_as_absent
    (cmd : string) (o : Options) (evs : list Event) :
  Js.truthy_opt_payload (stdin o) = false ->
  let s := exec cmd o evs in
  s = exec cmd (mkOptions None (timeout o) (throwOnNonZero o)) evs /\
  stdinEnded s = [] /\
  stdinCallback s = false /\
  (exitListener s = true -> stdinDone s = true) /\
  (forall x, In x (settlements s) -> ~ is_premature_exit x).
Proof.
  intros H s.
  pose proof (exec_invariant cmd o evs) as I. fold s in I.
  destruct (inv_nowrite o s I H) as (Hw & Hc).
  repeat split; auto.
  - unfold s, exec. now rewrite (run_falsy_stdin o evs _ H).
  - intros Hl. now apply (inv_flag o s I).
  - intros x Hx Hp. pose proof (inv_premature o s I x Hx Hp). congruence.
Qed.

Lemma exec_falsy_stdin_as_absent_witness :
  let o := mkOptions (Some (Js.Text "")) (Some 100) None in
  let evs := [ExecCallback None (Some Channel); Exit (Some 0)] in
  exec "true" o evs = exec "true" (mkOptions None (Some 100) None) evs /\
  stdinEnded (exec "true" o evs) = [].
Proof.
  intros o evs.
  destruct (exec_falsy_stdin_as_absent "true" o evs eq_refl) as (H1 & H2 & _).
  split; [exact H1 | exact H2].
Defined.

Lemma deliver_deaf o s ev :
  deaf s -> pendingTimer s = None -> deliver o s ev = s.
Proof.
  intros (H1 & H2 & H3 & H4 & H5) Ht. unfold deliver.
  destruct ev; now rewrite ?Ht, ?H1, ?H2, ?H3, ?H4, ?H5.
Qed.

Lemma run_deaf o evs : forall s,
  deaf s -> pendingTimer s = None -> run o s evs = s.
Proof.
  induction evs as [|ev evs IH]; intros s H Ht; [reflexivity|].
  rewrite run_cons, deliver_deaf by assumption. now apply IH.
Qed.

(** C4, what the code does. When the transport reports that the channel
    could not be opened (an error and no channel), the callback throws a
    [TypeError] on its first statement: neither [resolve] nor [reject] is
    called, the timer started by the executor is still pending, and
    without a timeout no later event ever settles the invocation. *)
Theorem exec_channel_open_failure_unreported
    (cmd : string) (o : Options) (e : Js.Error) :
  let s := exec cmd o [ExecCallback (Some e) None] in
  settlements s = [] /\ settled s = false /\
  uncaught s = [Js.TypeError "Cannot read property 'stderr' of undefined"] /\
  pendingTimer (executor cmd o) =
    (if Js.truthy_opt_number (timeout o) then timeout o else None) /\
  pendingTimer s = pendingTimer (executor cmd o) /\
  (Js.truthy_opt_number (timeout o) = false ->
   forall post, settlements (run o s post) = []).
Proof.
  cbn zeta. repeat split.
  intros H post. rewrite run_deaf; [reflexivity | |].
  - unfold deaf. cbn. tauto.
  - change (pendingTimer (executor cmd o) = None).
    unfold executor. cbn [pendingTimer]. now rewrite H.
Qed.

End ExecFacts.

(** * Properties of [connect] and [connectIfNeeded] *)

Section ClientFacts.
Import Client.

Lemma client_run_app s acts1 acts2 :
  run s (acts1 ++ acts2) = run (run s acts1) acts2.
Proof. apply fold_left_app. Qed.

Lemma client_run_cons s a acts : run s (a :: acts) = run (act s a) acts.
Proof. reflexivity. Qed.

Lemma removeListener_head p l : p ∉ l -> removeListener p (p :: l) = l.
Proof.
  intros H. cbn. rewrite bool_decide_eq_false_2 by exact H.
  now rewrite bool_decide_eq_true_2.
Qed.

Lemma emitReady_fold l : forall s,
  readyListeners s = l -> errorListeners s = l -> NoDup l ->
  fold_left fireOnceReady l s = emitted Resolved "connect() got ready event" l s.
Proof.
  induction l as [|p l IH]; intros s Hr He Hn.
  - destruct s; cbn in *; subst. unfold emitted; cbn.
    now rewrite !app_nil_r.
  - apply NoDup_cons in Hn as [Hp Hn]. cbn [fold_left].
    rewrite IH; [| | |exact Hn].
    + unfold emitted, fireOnceReady, onReady; cbn.
      rewrite <- !app_assoc. reflexivity.
    + unfold fireOnceReady, onReady; cbn. rewrite Hr.
      now apply removeListener_head.
    + unfold fireOnceReady, onReady; cbn. rewrite He.
      now apply removeListener_head.
Qed.

Lemma emitError_fold err l : forall s,
  readyListeners s = l -> errorListeners s = l -> NoDup l ->
  fold_left (fireOnceError err) l s =
  emitted (Rejected (Js.VError err connect_failed)) "connect() got error:" l s.
Proof.
  induction l as [|p l IH]; intros s Hr He Hn.
  - destruct s; cbn in *; subst. unfold emitted; cbn.
    now rewrite !app_nil_r.
  - apply NoDup_cons in Hn as [Hp Hn]. cbn [fold_left].
    rewrite IH; [| | |exact Hn].
    + unfold emitted, fireOnceError, onError; cbn.
      rewrite <- !app_assoc. reflexivity.
    + unfold fireOnceError, onError; cbn. rewrite Hr.
      now apply removeListener_head.
    + unfold fireOnceError, onError; cbn. rewrite He.
      now apply removeListener_head.
Qed.

Lemma emitReady_invariant s :
  invariant s ->
  emitReady s = emitted Resolved "connect() got ready event" (readyListeners s) s.
Proof.
  intros I. unfold emitReady.
  apply emitReady_fold; [reflexivity | apply I | apply I].
Qed.

Lemma emitError_invariant err s :
  invariant s ->
  emitError err s =
  emitted (Rejected (Js.VError err connect_failed)) "connect() got error:"
    (readyListeners s) s.
Proof.
  intros I. unfold emitError. rewrite (inv_same s I).
  apply emitError_fold; [reflexivity | apply I | apply I].
Qed.

Lemma emitted_invariant outcome msg s :
  invariant s -> invariant (emitted outcome msg (readyListeners s) s).
Proof.
  intros [I1 I2 I3 I4 I5]. split; cbn.
  - reflexivity.
  - constructor.
  - intros p Hp. now apply not_elem_of_nil in Hp.
  - intros p x [H|H]%elem_of_app; [now apply (I4 p x)|].
    apply list_elem_of_fmap in H as (q & [= -> ->] & Hq). now apply I3.
  - intros p x Hp. now apply not_elem_of_nil in Hp.
Qed.

Lemma fresh_invariant : invariant fresh.
Proof.
  split; cbn; try reflexivity.
  - constructor.
  - intros p Hp. now apply not_elem_of_nil in Hp.
  - intros p x Hp. now apply not_elem_of_nil in Hp.
  - intros p x Hp. now apply not_elem_of_nil in Hp.
Qed.

Lemma connect_invariant s : invariant s -> invariant (snd (connect s)).
Proof.
  intros [I1 I2 I3 I4 I5]. split; cbn.
  - now rewrite I1.
  - apply NoDup_app. split; [exact I2|]. split; [|apply NoDup_singleton].
    intros p Hp ->%list_elem_of_singleton. apply I3 in Hp. lia.
  - intros p [H| ->%list_elem_of_singleton]%elem_of_app; [apply I3 in H|]; lia.
  - intros p x H. apply I4 in H. lia.
  - intros p x [H| ->%list_elem_of_singleton]%elem_of_app.
    + now apply I5.
    + intros H. apply I4 in H. lia.
Qed.

Lemma connectIfNeeded_invariant s :
  invariant s -> invariant (snd (connectIfNeeded s)).
Proof.
  intros I. unfold connectIfNeeded.
  destruct (connectStarted s); cbn; [exact I|].
  now apply (connect_invariant s).
Qed.

Lemma act_invariant s a : invariant s -> invariant (act s a).
Proof.
  intros I. destruct a; cbn.
  - now apply connect_invariant.
  - now apply connectIfNeeded_invariant.
  - now apply connectIfNeeded_invariant.
  - rewrite emitReady_invariant by exact I. now apply emitted_invariant.
  - rewrite emitError_invariant by exact I. now apply emitted_invariant.
Qed.

Lemma client_run_invariant acts : forall s, invariant s -> invariant (run s acts).
Proof.
  induction acts as [|a acts IH]; intros s I; [exact I|].
  rewrite client_run_cons. apply IH, act_invariant, I.
Qed.

(** *** One connection attempt *)

Lemma emit_keeps_attempts s a :
  invariant s -> is_transport_event a = true ->
  connectStarted (act s a) = connectStarted s /\
  connectAttempts (act s a) = connectAttempts s.
Proof.
  intros I H. destruct a; try discriminate; cbn.
  - now rewrite emitReady_invariant.
  - now rewrite emitError_invariant.
Qed.

Lemma lazy_attempts acts : forall s,
  invariant s -> no_explicit_connect acts = true ->
  connectAttempts s = (if connectStarted s then 1 else 0)%nat ->
  connectAttempts (run s acts) = (if connectStarted (run s acts) then 1 else 0)%nat /\
  (connectStarted s = true -> connectStarted (run s acts) = true) /\
  (existsb is_lazy_call acts = true -> connectStarted (run s acts) = true).
Proof.
  induction acts as [|a acts IH]; intros s I Hn Hc.
  - cbn. repeat split; auto. discriminate.
  - cbn in Hn. apply andb_true_iff in Hn as [Ha Hn].
    rewrite client_run_cons.
    assert (Hstep : connectAttempts (act s a) =
                      (if connectStarted (act s a) then 1 else 0)%nat /\
                    (connectStarted s = true -> connectStarted (act s a) = true) /\
                    (is_lazy_call a = true -> connectStarted (act s a) = true)).
    { destruct a; try discriminate; cbn.
      - unfold connectIfNeeded. destruct (connectStarted s) eqn:E; cbn;
          rewrite ?E, ?Hc; auto.
      - unfold connectIfNeeded. destruct (connectStarted s) eqn:E; cbn;
          rewrite ?E, ?Hc; auto.
      - rewrite emitReady_invariant by exact I. cbn. repeat split; auto. discriminate.
      - rewrite emitError_invariant by exact I. cbn. repeat split; auto. discriminate. }
    destruct Hstep as (H1 & H2 & H3).
    destruct (IH (act s a) (act_invariant s a I) Hn H1) as (K1 & K2 & K3).
    repeat split; auto.
    cbn [existsb]. intros [H|H]%orb_true_iff; auto.
Qed.

(** C5, as amended. On a client on which [connect()] is never called
    explicitly, once
    [exec] or [putFile] has been called, and whatever calls and transport
    events follow (the attempt in flight, succeeded or failed),
    [client.connect] has been called exactly once; and on any client whose
    first attempt has started, [connectIfNeeded] changes nothing and awaits
    nothing. *)
Theorem connectIfNeeded_connects_once (acts : list Client.Action) :
  no_explicit_connect acts = true ->
  existsb is_lazy_call acts = true ->
  connectAttempts (run fresh acts) = 1%nat /\
  connectStarted (run fresh acts) = true /\
  connectIfNeeded (run fresh acts) = (None, run fresh acts) /\
  (forall more, no_explicit_connect more = true ->
     connectAttempts (run fresh (acts ++ more)) = 1%nat) /\
  (forall s, connectStarted s = true -> connectIfNeeded s = (None, s)).
Proof.
  intros Hn Hl.
  destruct (lazy_attempts acts fresh fresh_invariant Hn eq_refl) as (H1 & _ & H3).
  specialize (H3 Hl). rewrite H3 in H1.
  assert (G : forall s, connectStarted s = true -> connectIfNeeded s = (None, s)).
  { intros s Hs. unfold connectIfNeeded. now rewrite Hs. }
  repeat split; auto.
  intros more Hm. rewrite client_run_app.
  destruct (lazy_attempts more (run fresh acts)
              (client_run_invariant acts fresh fresh_invariant) Hm)
    as (K1 & K2 & _); [now rewrite H3|].
  now rewrite K2 in K1.
Qed.

Lemma connectIfNeeded_connects_once_witness :
  connectAttempts
    (run fresh [CallExec; CallPutFile; EmitError (Js.Err "refused"); CallExec]) = 1%nat.
Proof.
  exact (proj1 (connectIfNeeded_connects_once
                  [CallExec; CallPutFile; EmitError (Js.Err "refused"); CallExec]
                  eq_refl eq_refl)).
Defined.

(** C5 as first stated does not hold: the attempt is not shared by the
    callers that arrive while it is in flight. After a first [exec] the
    promise of the attempt is unsettled; the first caller awaits it, a
    second caller awaits nothing, and its [exec] makes its invocation at
    once. *)
Lemma connection_attempt_not_awaited_by_second_caller :
  let c := run fresh [CallExec] in
  Session.promise_state 0 c = None /\
  fst (connectIfNeeded fresh) = Some 0%nat /\
  fst (connectIfNeeded c) <> Some 0%nat /\
  Session.exec_begin "ls" Exec.sample_options c =
    (Session.Invoked (Exec.executor "ls" Exec.sample_options), c).
Proof.
  cbv zeta. split; [reflexivity|]. split; [reflexivity|].
  split; [intros H; discriminate H | reflexivity].
Qed.

(** *** The race between [ready] and [error] *)

Lemma outcomes_app p s l :
  map snd (filter (fun x => fst x = p) (settlements s ++ l)) =
  outcomes p s ++ map snd (filter (fun x => fst x = p) l).
Proof. unfold outcomes. now rewrite filter_app, map_app. Qed.

Lemma outcomes_of_emit_in (outcome : Outcome) (p : nat) (l : list nat) :
  NoDup l -> p ∈ l ->
  map snd (filter (fun x => fst x = p) (map (fun q => (q, outcome)) l)) = [outcome].
Proof.
  induction l as [|q l IH]; intros Hn Hp; [now apply not_elem_of_nil in Hp|].
  apply NoDup_cons in Hn as [Hq Hn]. cbn [map].
  destruct (decide (q = p)) as [->|Hne].
  - rewrite filter_cons_True by reflexivity. cbn [map snd]. f_equal.
    clear IH Hp. induction l as [|r l IH]; [reflexivity|].
    apply not_elem_of_cons in Hq as [Hr Hq]. apply NoDup_cons in Hn as [_ Hn].
    cbn [map]. rewrite filter_cons_False by (cbn; congruence). now apply IH.
  - rewrite filter_cons_False by (cbn; congruence).
    apply IH; [exact Hn|]. apply elem_of_cons in Hp as [->|Hp]; congruence.
Qed.

Lemma outcomes_of_emit_out (outcome : Outcome) (p : nat) (l : list nat) :
  p ∉ l ->
  map snd (filter (fun x => fst x = p) (map (fun q => (q, outcome)) l)) = [].
Proof.
  induction l as [|q l IH]; intros Hp; [reflexivity|].
  apply not_elem_of_cons in Hp as [Hq Hp]. cbn [map].
  rewrite filter_cons_False by (cbn; congruence). now apply IH.
Qed.

Lemma outcomes_none p s :
  invariant s -> (connectAttempts s <= p)%nat -> outcomes p s = [].
Proof.
  intros I Hp. unfold outcomes.
  destruct (filter (fun x => fst x = p) (settlements s)) as [|[q x] l] eqn:E;
    [reflexivity|].
  assert (H : (q, x) ∈ filter (fun x => fst x = p) (settlements s))
    by (rewrite E; left).
  apply list_elem_of_filter in H as [Hq H]. cbn in Hq. subst q.
  apply (inv_outcome_bound s I) in H. lia.
Qed.

Lemma outcomes_pending p s :
  invariant s -> p ∈ readyListeners s -> outcomes p s = [].
Proof.
  intros I Hp. unfold outcomes.
  destruct (filter (fun x => fst x = p) (settlements s)) as [|[q x] l] eqn:E;
    [reflexivity|].
  assert (H : (q, x) ∈ filter (fun x => fst x = p) (settlements s))
    by (rewrite E; left).
  apply list_elem_of_filter in H as [Hq H]. cbn in Hq. subst q.
  now apply (inv_pending s I p x) in H.
Qed.

(** A call leaves a listening promise listening, and a retired one
    retired; in both cases with the outcomes it had. *)
Lemma call_keeps_pending p s a :
  is_transport_event a = false -> p ∈ readyListeners s ->
  p ∈ readyListeners (act s a).
Proof.
  intros Ha Hp. destruct a; try discriminate; cbn;
    unfold connectIfNeeded; try destruct (connectStarted s); cbn;
    auto; apply elem_of_app; now left.
Qed.

Lemma calls_keep_pending p acts : forall s,
  no_transport_event acts = true -> p ∈ readyListeners s ->
  p ∈ readyListeners (run s acts).
Proof.
  induction acts as [|a acts IH]; intros s Hn Hp; [exact Hp|].
  cbn in Hn. apply andb_true_iff in Hn as [Ha Hn].
  rewrite client_run_cons. apply IH; [exact Hn|].
  apply call_keeps_pending; [|exact Hp]. now destruct (is_transport_event a).
Qed.

Lemma act_keeps_retired p s a :
  invariant s -> retired p s ->
  retired p (act s a) /\ outcomes p (act s a) = outcomes p s.
Proof.
  intros I (Hb & Hr & He). unfold retired.
  assert (Hc : retired p (snd (connect s)) /\
               outcomes p (snd (connect s)) = outcomes p s).
  { unfold retired; cbn. repeat split; [lia| |].
    - intros [H| ->%list_elem_of_singleton]%elem_of_app; [auto|lia].
    - intros [H| ->%list_elem_of_singleton]%elem_of_app; [auto|lia]. }
  assert (Hi : retired p (snd (connectIfNeeded s)) /\
               outcomes p (snd (connectIfNeeded s)) = outcomes p s).
  { unfold connectIfNeeded. destruct (connectStarted s); cbn; [|exact Hc].
    unfold retired; auto. }
  destruct a; cbn; auto.
  - rewrite emitReady_invariant by exact I. cbn.
    repeat split; auto using not_elem_of_nil.
    unfold outcomes at 1; cbn. rewrite outcomes_app.
    rewrite outcomes_of_emit_out by exact Hr. apply app_nil_r.
  - rewrite emitError_invariant by exact I. cbn.
    repeat split; auto using not_elem_of_nil.
    unfold outcomes at 1; cbn. rewrite outcomes_app.
    rewrite outcomes_of_emit_out by exact Hr. apply app_nil_r.
Qed.

Lemma run_keeps_retired p acts : forall s,
  invariant s -> retired p s ->
  retired p (run s acts) /\ outcomes p (run s acts) = outcomes p s.
Proof.
  induction acts as [|a acts IH]; intros s I H; [auto|].
  rewrite client_run_cons.
  destruct (act_keeps_retired p s a I H) as (H1 & H2).
  destruct (IH _ (act_invariant s a I) H1) as (H3 & H4).
  split; [exact H3|congruence].
Qed.

(** C8. Take any call of [connect()], after any history of the client,
    followed by any calls and then by the first transport event. If that
    event is [ready], the promise is resolved; if it is [error], the
    promise is rejected with the error wrapped as the cause of a [VError].
    In both cases that is the only settlement the promise ever gets: both
    of its listeners are gone from the emitter and stay so whatever
    follows. Until the event, the promise has no outcome and listens on
    both events. *)
Theorem connect_settles_with_first_event
    (before calls rest : list Client.Action) :
  no_transport_event calls = true ->
  let s0 := run fresh before in
  let p := fst (connect s0) in
  let waiting := run fresh (before ++ CallConnect :: calls) in
  let after := fun ev => run fresh (before ++ CallConnect :: calls ++ ev :: rest) in
  (outcomes p waiting = [] /\
   p ∈ readyListeners waiting /\ p ∈ errorListeners waiting) /\
  (outcomes p (after EmitReady) = [Resolved] /\
   retired p (after EmitReady)) /\
  (forall err,
     outcomes p (after (EmitError err)) =
       [Rejected (Js.VError err connect_failed)] /\
     retired p (after (EmitError err))).
Proof.
  intros Hcalls s0 p waiting after.
  pose proof (client_run_invariant before fresh fresh_invariant) as I0.
  fold s0 in I0.
  assert (Ew : waiting = run (snd (connect s0)) calls).
  { unfold waiting. now rewrite client_run_app, client_run_cons. }
  pose proof (connect_invariant s0 I0) as I1.
  pose proof (client_run_invariant calls _ I1) as Iw. rewrite <- Ew in Iw.
  assert (Hp : p ∈ readyListeners waiting).
  { rewrite Ew. apply calls_keep_pending; [exact Hcalls|].
    cbn. apply elem_of_app. right. now left. }
  assert (Hb : (p < connectAttempts waiting)%nat)
    by now apply (inv_listener_bound waiting Iw).
  assert (Ea : forall ev, after ev = run (act waiting ev) rest).
  { intros ev. unfold after, waiting.
    change (before ++ CallConnect :: calls ++ ev :: rest)
      with (before ++ (CallConnect :: calls) ++ ev :: rest).
    now rewrite app_assoc, client_run_app, client_run_cons. }
  clearbody after waiting p. clear Ew.
  assert (Hemit : forall outcome msg,
            let s1 := emitted outcome msg (readyListeners waiting) waiting in
            invariant s1 -> outcomes p (run s1 rest) = [outcome] /\
            retired p (run s1 rest)).
  { intros outcome msg s1 Ie.
    assert (R : retired p s1).
    { unfold retired, s1; cbn. auto using not_elem_of_nil. }
    destruct (run_keeps_retired p rest _ Ie R) as (R' & ->).
    split; [|exact R'].
    unfold s1, outcomes at 1. cbn [settlements emitted]. rewrite outcomes_app.
    rewrite (outcomes_pending p waiting Iw Hp).
    apply outcomes_of_emit_in; [apply Iw | exact Hp]. }
  split; [|split].
  - split; [now apply outcomes_pending|]. split; [exact Hp|].
    now rewrite (inv_same waiting Iw).
  - rewrite Ea. change (act waiting EmitReady) with (emitReady waiting).
    rewrite emitReady_invariant by exact Iw.
    apply Hemit. now apply emitted_invariant.
  - intros err. rewrite Ea.
    change (act waiting (EmitError err)) with (emitError err waiting).
    rewrite emitError_invariant by exact Iw.
    apply Hemit. now apply emitted_invariant.
Qed.

Lemma connect_settles_with_first_event_witness :
  outcomes 0
    (run fresh ([] ++ CallConnect :: [CallExec] ++
                  EmitError (Js.Err "refused") :: [EmitReady])) =
  [Rejected (Js.VError (Js.Err "refused") connect_failed)].
Proof.
  destruct (connect_settles_with_first_event [] [CallExec] [EmitReady] eq_refl)
    as (_ & _ & H).
  exact (proj1 (H (Js.Err "refused"))).
Defined.

End ClientFacts.

(** * Properties of [execScript] *)

Section ScriptFacts.
Import Script.

Lemma get_stdin_set script (obj : gmap string Value) :
  get (<["stdin" := Str script]> obj) "stdin" = Str script.
Proof. unfold get. now rewrite lookup_insert_eq. Qed.

Lemma get_other_set script key (obj : gmap string Value) :
  key <> "stdin" -> key <> "sudo" ->
  get (<["stdin" := Str script]> (delete "sudo" obj)) key = get obj key.
Proof.
  intros H1 H2. unfold get.
  rewrite lookup_insert_ne by congruence.
  now rewrite lookup_delete_ne by congruence.
Qed.

Lemma exec_options_of_script script (obj : gmap string Value) :
  exec_options (<["stdin" := Str script]> (delete "sudo" obj)) =
  {| Exec.stdin := Some (Js.Text script);
     Exec.timeout := Exec.timeout (exec_options obj);
     Exec.throwOnNonZero := Exec.throwOnNonZero (exec_options obj) |}.
Proof.
  unfold exec_options. rewrite get_stdin_set.
  rewrite !get_other_set by discriminate. reflexivity.
Qed.

Lemma to_object_reads (o : Options) :
  get (to_object o) "sudo" = from_option Bool Undefined (sudo o) /\
  Exec.timeout (exec_options (to_object o)) = timeout o /\
  Exec.throwOnNonZero (exec_options (to_object o)) = throwOnNonZero o.
Proof.
  destruct o as [[sd|] [t|] [th|]]; repeat split; reflexivity.
Qed.

(** C9. For every script and every options object of the declared type,
    [execScript] is [exec] run with the command [sudo bash -s] when [sudo]
    is true and [bash -s] otherwise, with [timeout] and [throwOnNonZero]
    passed through unchanged and [stdin] set to the script. For any
    options object, the object handed to [exec] is the caller's without
    [sudo] and with [stdin] set to the script. *)
Theorem execScript_refines_exec
    (script : string) (o : Script.Options) (evs : list Exec.Event) :
  execScript script (to_object o) evs = executeScript_spec script o evs /\
  (forall obj : gmap string Value,
     execScript script obj evs =
     Exec.exec (if truthy (get obj "sudo") then "sudo bash -s" else "bash -s")
       {| Exec.stdin := Some (Js.Text script);
          Exec.timeout := Exec.timeout (exec_options obj);
          Exec.throwOnNonZero := Exec.throwOnNonZero (exec_options obj) |} evs).
Proof.
  assert (G : forall obj : gmap string Value,
     execScript script obj evs =
     Exec.exec (if truthy (get obj "sudo") then "sudo bash -s" else "bash -s")
       {| Exec.stdin := Some (Js.Text script);
          Exec.timeout := Exec.timeout (exec_options obj);
          Exec.throwOnNonZero := Exec.throwOnNonZero (exec_options obj) |} evs).
  { intros obj. unfold execScript. rewrite exec_options_of_script.
    now destruct (truthy (get obj "sudo")). }
  split; [|exact G].
  rewrite G. unfold executeScript_spec.
  destruct (to_object_reads o) as (-> & -> & ->).
  now destruct (sudo o) as [[|]|].
Qed.

End ScriptFacts.

(** * More properties of [exec] *)

Section ExecMore.
Import Exec ExecKinds.

Ltac callbacks :=
  cbv [deliver run_callback onTimeout onExit cancelTimer settleOnExit
       onStdoutData onStderrData onStdinEnd execCallback member resultInfo
       mbind mret Body_bind Body_ret read update skip throw resolve reject
       log_debug clearTimeout].

Lemma quiet_keeps_settlements o s ev :
  is_quiet ev = true ->
  settlements (deliver o s ev) = settlements s /\
  settled (deliver o s ev) = settled s /\
  pendingTimer (deliver o s ev) = pendingTimer s.
Proof.
  intros H. destruct ev; try discriminate; destruct s; callbacks; cbn.
  - destruct callbackRan0; auto.
    destruct channel; cbn; auto.
    destruct (stdin o) as [data|]; cbn; auto.
    destruct (Js.truthy_payload data); cbn; auto.
  - destruct stdoutListener0; auto.
  - destruct stderrListener0; auto.
  - destruct stdinCallback0; auto.
Qed.

Lemma or_zero_when_falsy c :
  Js.truthy_opt_number c = false -> Js.or_zero c = 0.
Proof.
  destruct c as [n|]; [|reflexivity]. cbn. intros H.
  unfold Js.or_zero. now rewrite H.
Qed.

(** Each event adds at most one settlement, of a permitted kind. *)
Lemma deliver_settlement_permitted o s ev :
  invariant o s ->
  settlements (deliver o s ev) = settlements s \/
  exists x, settlements (deliver o s ev) = settlements s ++ [x] /\ permitted o x.
Proof.
  intros I.
  destruct (is_quiet ev) eqn:Q; [left; now apply quiet_keeps_settlements|].
  destruct ev; try discriminate.
  - (* TimerFires *)
    destruct (pendingTimer s) as [t|] eqn:Hp; [|left; now rewrite timer_noop].
    destruct (inv_timer o s I t Hp) as (Hs & _ & Ht & Htr).
    right. exists (Reject (Js.Err (timeout_message t))). split.
    + unfold deliver. rewrite Hp.
      rewrite onTimeout_unsettled by (destruct s; exact Hs).
      destruct s; reflexivity.
    + cbn. left. split; [now exists t|]. now rewrite Ht.
  - (* Exit *)
    destruct (exitListener s) eqn:Hl; [|left; unfold deliver; now rewrite Hl].
    destruct (settled s) eqn:Hs; [left; now apply deliver_settled|].
    right. destruct (stdinDone s) eqn:Hd.
    + destruct (Js.truthy_opt_bool (throwOnNonZero o) && Js.truthy_opt_number code)
        eqn:Hn.
      * destruct (exit_nonzero o code s Hl Hs Hd Hn) as (_ & ->).
        eexists; split; [reflexivity|]. cbn. right. right.
        split; [now eexists|].
        apply andb_true_iff in Hn as [Hn _].
        now destruct (throwOnNonZero o) as [[|]|].
      * destruct (exit_success o code s Hl Hs Hd Hn) as (_ & ->).
        eexists; split; [reflexivity|]. cbn. intros Ht.
        rewrite Ht in Hn. cbn in Hn. now apply or_zero_when_falsy.
    + destruct (exit_premature o code s Hl Hs Hd) as (_ & ->).
      eexists; split; [reflexivity|]. cbn. right. left.
      split; [now eexists|].
      destruct (Js.truthy_opt_payload (stdin o)) eqn:E; [reflexivity|].
      pose proof (inv_flag o s I Hl E). congruence.
Qed.

Lemma run_settlements_permitted o evs : forall s,
  invariant o s -> Forall (permitted o) (settlements s) ->
  Forall (permitted o) (settlements (run o s evs)).
Proof.
  induction evs as [|ev evs IH]; intros s I H; [exact H|].
  rewrite run_cons. apply IH; [now apply deliver_invariant|].
  destruct (deliver_settlement_permitted o s ev I) as [-> | (x & -> & Hx)];
    [exact H|].
  apply Forall_app. split; [exact H|]. now constructor.
Qed.

Lemma exec_settlements_permitted cmd o evs :
  Forall (permitted o) (settlements (exec cmd o evs)).
Proof.
  apply run_settlements_permitted; [apply executor_invariant|]. constructor.
Qed.

(** X1. Every call of [resolve] or [reject] that [exec] ever makes is a result,
    a timeout failure, a premature-exit failure or a non-zero-exit failure;
    a failure of a kind is made only with the option that enables it
    (a truthy [timeout], a truthy [stdin], [throwOnNonZero] true), and with
    [throwOnNonZero] true a result always carries code 0. *)
Theorem exec_settlement_kinds
    (cmd : string) (o : Options) (evs : list Event) (x : Settlement) :
  In x (settlements (exec cmd o evs)) ->
  (exists r, x = Resolve r /\
     (throwOnNonZero o = Some true -> ExecResult.code r = 0)) \/
  (is_timeout_failure x /\ Js.truthy_opt_number (timeout o) = true) \/
  (is_premature_exit x /\ Js.truthy_opt_payload (stdin o) = true) \/
  (is_nonzero_exit x /\ throwOnNonZero o = Some true).
Proof.
  intros Hx.
  pose proof (exec_settlements_permitted cmd o evs) as F.
  rewrite Forall_forall in F. specialize (F x).
  rewrite list_elem_of_In in F. specialize (F Hx).
  destruct x as [r|e]; cbn in F.
  - left. exists r. split; [reflexivity|]. intros Ht. apply F. now rewrite Ht.
  - right. exact F.
Qed.

Lemma exec_settlement_kinds_witness :
  let o := mkOptions None None (Some true) in
  let evs := [ExecCallback None (Some Channel); Exit None] in
  let x := Resolve {| ExecResult.code := 0; ExecResult.stdout := "";
                      ExecResult.stderr := "" |} in
  (exists r, x = Resolve r /\
     (throwOnNonZero o = Some true -> ExecResult.code r = 0)) \/
  (is_timeout_failure x /\ Js.truthy_opt_number (timeout o) = true) \/
  (is_premature_exit x /\ Js.truthy_opt_payload (stdin o) = true) \/
  (is_nonzero_exit x /\ throwOnNonZero o = Some true).
Proof.
  intros o evs x.
  apply (exec_settlement_kinds "kill -9 $$" o evs x).
  vm_compute. left. reflexivity.
Defined.

Lemma settlement_not_timeout o x :
  permitted o x -> Js.truthy_opt_number (timeout o) = false ->
  ~ is_timeout_failure x.
Proof.
  intros P Hf. destruct x as [r|e].
  - intros [t E]. discriminate E.
  - destruct P as [(_ & Ht) | [((info & ->) & _) | ((info & ->) & _)]].
    + congruence.
    + apply premature_not_timeout.
    + apply nonzero_not_timeout.
Qed.

Lemma deliver_ignores_timeout o s ev :
  deliver o s ev = deliver (mkOptions (stdin o) None (throwOnNonZero o)) s ev.
Proof. destruct ev; reflexivity. Qed.

Lemma run_ignores_timeout o evs : forall s,
  run o s evs = run (mkOptions (stdin o) None (throwOnNonZero o)) s evs.
Proof.
  induction evs as [|ev evs IH]; intros s; [reflexivity|].
  now rewrite !run_cons, <- deliver_ignores_timeout, IH.
Qed.

Lemma executor_unarmed cmd o :
  Js.truthy_opt_number (timeout o) = false ->
  executor cmd o = executor cmd (mkOptions (stdin o) None (throwOnNonZero o)) /\
  pendingTimer (executor cmd o) = None /\ timeoutId (executor cmd o) = None.
Proof. intros H. unfold executor. cbn. now rewrite H. Qed.

Lemma deliver_keeps_no_handle o s ev :
  timeoutId s = None -> timeoutId (deliver o s ev) = None.
Proof.
  intros H. destruct ev; destruct s; cbn in *; subst; callbacks; cbn; auto.
  - destruct pendingTimer0; cbn; auto. destruct settled0; cbn; auto.
  - destruct callbackRan0; auto.
    destruct channel; cbn; auto.
    destruct (stdin o) as [data|]; cbn; auto.
    destruct (Js.truthy_payload data); cbn; auto.
  - destruct stdoutListener0; auto.
  - destruct stderrListener0; auto.
  - destruct exitListener0; auto. destruct settled0; cbn; auto.
    destruct stdinDone0; cbn; auto.
    destruct (Js.truthy_opt_bool (throwOnNonZero o) && Js.truthy_opt_number code);
      cbn; auto.
  - destruct stdinCallback0; auto.
Qed.

Lemma run_keeps_no_handle o evs : forall s,
  timeoutId s = None -> timeoutId (run o s evs) = None.
Proof.
  induction evs as [|ev evs IH]; intros s H; [exact H|].
  rewrite run_cons. now apply IH, deliver_keeps_no_handle.
Qed.

(** X2. A [timeout] option that is absent or 0 arms no timer: the invocation
    runs exactly as with [timeout] absent, [setTimeout] is never called, and
    no timeout failure is ever reported, whatever events arrive. *)
Theorem exec_falsy_timeout_never_times_out
    (cmd : string) (o : Options) (evs : list Event) :
  Js.truthy_opt_number (timeout o) = false ->
  let s := exec cmd o evs in
  s = exec cmd (mkOptions (stdin o) None (throwOnNonZero o)) evs /\
  pendingTimer s = None /\ timeoutId s = None /\
  (forall x, In x (settlements s) -> ~ is_timeout_failure x).
Proof.
  intros H s. destruct (executor_unarmed cmd o H) as (E & Hp & Hi).
  repeat split.
  - unfold s, exec. now rewrite E, run_ignores_timeout.
  - now apply run_timer_gone.
  - now apply run_keeps_no_handle.
  - intros x Hx. apply (settlement_not_timeout o); [|exact H].
    pose proof (exec_settlements_permitted cmd o evs) as F.
    rewrite Forall_forall in F. apply F. now apply list_elem_of_In.
Qed.

Lemma exec_falsy_timeout_never_times_out_witness :
  let o := mkOptions None (Some 0) None in
  let evs := [TimerFires; ExecCallback None (Some Channel); TimerFires] in
  exec "sleep 5" o evs = exec "sleep 5" (mkOptions None None None) evs /\
  pendingTimer (exec "sleep 5" o evs) = None.
Proof.
  intros o evs.
  destruct (exec_falsy_timeout_never_times_out "sleep 5" o evs eq_refl)
    as (H1 & H2 & _).
  split; [exact H1 | exact H2].
Defined.

Lemma run_quiet o evs : forall s,
  forallb is_quiet evs = true ->
  settlements (run o s evs) = settlements s /\
  settled (run o s evs) = settled s /\
  pendingTimer (run o s evs) = pendingTimer s.
Proof.
  induction evs as [|ev evs IH]; intros s H; [auto|].
  cbn in H. apply andb_true_iff in H as [Hev H].
  rewrite run_cons.
  destruct (quiet_keeps_settlements o s ev Hev) as (H1 & H2 & H3).
  destruct (IH (deliver o s ev) H) as (K1 & K2 & K3).
  rewrite K1, K2, K3. auto.
Qed.

Lemma quiet_events_settle_nothing cmd o evs :
  forallb is_quiet evs = true -> settlements (exec cmd o evs) = [].
Proof. intros H. now apply (run_quiet o evs (executor cmd o)). Qed.

(** X3. Only the timer and an exit event settle an invocation: as long as
    neither the timer fired nor an exit event arrived, neither [resolve] nor
    [reject] has been called, whatever the channel callback (failing or
    not), the output chunks and the stdin acknowledgement did; and the timer
    armed by the executor is still pending. *)
Theorem exec_pending_until_timer_or_exit
    (cmd : string) (o : Options) (evs : list Event) :
  forallb is_quiet evs = true ->
  settlements (exec cmd o evs) = [] /\
  settled (exec cmd o evs) = false /\
  pendingTimer (exec cmd o evs) = pendingTimer (executor cmd o).
Proof. intros H. now apply (run_quiet o evs (executor cmd o)). Qed.

Lemma exec_pending_until_timer_or_exit_witness :
  settlements
    (exec "cat" sample_options
       [ExecCallback None (Some Channel); StdoutData "a"; StderrData "b";
        StdinFlushed]) = [].
Proof.
  exact (proj1 (exec_pending_until_timer_or_exit "cat" sample_options
                  [ExecCallback None (Some Channel); StdoutData "a";
                   StderrData "b"; StdinFlushed] eq_refl)).
Defined.

(** X4. An exit code of [null] (the process was killed by a signal) counts as
    success: on an unsettled invocation whose stdin is flushed, an exit
    event carrying [null] or 0 resolves with code 0 and the accumulated
    output, also when [throwOnNonZero] is true. *)
Theorem exec_null_code_resolves_zero
    (cmd : string) (o : Options) (evs post : list Event) (c : option Z) :
  let s := exec cmd o evs in
  exitListener s = true -> settled s = false -> stdinDone s = true ->
  c = None \/ c = Some 0 ->
  settlements (run o s (Exit c :: post)) =
    [Resolve {| ExecResult.code := 0;
                ExecResult.stdout := stdout s;
                ExecResult.stderr := stderr s |}].
Proof.
  intros s Hl Hs Hd Hc.
  pose proof (exec_invariant cmd o evs) as I. fold s in I.
  assert (Hn : (Js.truthy_opt_bool (throwOnNonZero o) && Js.truthy_opt_number c)
               = false)
    by (destruct Hc as [-> | ->]; apply andb_false_r).
  destruct (exit_success o c s Hl Hs Hd Hn) as (Hst & Hx).
  rewrite run_cons. destruct (run_settled o post _ Hst) as (_ & -> & _).
  rewrite Hx, (unsettled_nothing o s I Hs).
  now destruct Hc as [-> | ->].
Qed.

Lemma exec_null_code_resolves_zero_witness :
  let o := mkOptions None None (Some true) in
  let s := exec "sleep 9" o [ExecCallback None (Some Channel); StdoutData "x"] in
  settlements (run o s [Exit None]) =
    [Resolve {| ExecResult.code := 0;
                ExecResult.stdout := stdout s;
                ExecResult.stderr := stderr s |}].
Proof.
  intros o s.
  assert (L : exitListener s = true) by (vm_compute; reflexivity).
  assert (U : settled s = false) by (vm_compute; reflexivity).
  assert (D : stdinDone s = true) by (vm_compute; reflexivity).
  exact (exec_null_code_resolves_zero "sleep 9" o _ [] None L U D (or_introl eq_refl)).
Defined.

(** X5. A settled invocation has no timer pending: whichever of the timer and
    the exit event settles it, the timer is gone afterwards. *)
Theorem exec_settled_leaves_no_timer
    (cmd : string) (o : Options) (evs : list Event) :
  settled (exec cmd o evs) = true -> pendingTimer (exec cmd o evs) = None.
Proof.
  intros H. pose proof (exec_invariant cmd o evs) as I.
  destruct (pendingTimer (exec cmd o evs)) as [t|] eqn:E; [|reflexivity].
  destruct (inv_timer o _ I t E) as (Hs & _). congruence.
Qed.

Lemma exec_settled_leaves_no_timer_witness :
  pendingTimer (exec "ls" sample_options (sample_open ++ [Exit (Some 0)])) = None.
Proof.
  apply exec_settled_leaves_no_timer. vm_compute. reflexivity.
Defined.

Lemma deliver_stdinEnded o s ev (data : Js.Payload) :
  stdin o = Some data -> Js.truthy_payload data = true ->
  stdinEnded s = [] \/ (stdinEnded s = [data] /\ callbackRan s = true) ->
  stdinEnded (deliver o s ev) = [] \/
  (stdinEnded (deliver o s ev) = [data] /\ callbackRan (deliver o s ev) = true).
Proof.
  intros Hin Htr H. destruct ev; destruct s; cbn in *; callbacks; cbn.
  - destruct pendingTimer0; cbn; auto. destruct settled0; cbn; auto.
  - destruct callbackRan0; auto.
    destruct H as [-> | (_ & H)]; [|discriminate].
    destruct channel; cbn; auto.
    rewrite Hin. cbn. rewrite Htr. cbn. auto.
  - destruct stdoutListener0; auto.
  - destruct stderrListener0; auto.
  - destruct exitListener0; auto. destruct timeoutId0, settled0; cbn; auto;
      destruct stdinDone0; cbn; auto;
      destruct (Js.truthy_opt_bool (throwOnNonZero o) && Js.truthy_opt_number code);
      cbn; auto.
  - destruct stdinCallback0; auto.
Qed.

Lemma run_stdinEnded o evs (data : Js.Payload) : forall s,
  stdin o = Some data -> Js.truthy_payload data = true ->
  stdinEnded s = [] \/ (stdinEnded s = [data] /\ callbackRan s = true) ->
  stdinEnded (run o s evs) = [] \/
  (stdinEnded (run o s evs) = [data] /\ callbackRan (run o s evs) = true).
Proof.
  induction evs as [|ev evs IH]; intros s Hin Htr H; [exact H|].
  rewrite run_cons. apply IH; auto. now apply deliver_stdinEnded.
Qed.

Lemma stdin_ended_after_open cmd o (data : Js.Payload) pre mid err ch :
  stdin o = Some data -> Js.truthy_payload data = true ->
  no_callback pre = true ->
  stdinEnded (exec cmd o (pre ++ ExecCallback err (Some ch) :: mid)) = [data].
Proof.
  intros Hin Htr Hpre.
  pose proof (run_unopened o pre _ (executor_unopened cmd o) Hpre) as U.
  unfold exec. rewrite run_app, run_cons.
  destruct (callback_opens o err ch _ U) as (L & _ & _ & _ & _ & _ & Hw).
  destruct (run_listening o mid _ L) as (_ & _ & _ & _ & ->).
  rewrite Hw, Hin. cbn. now rewrite Htr.
Qed.

(** X6. A truthy [stdin] is handed to [channel.stdin.end] once, unchanged, by
    the [client.exec] callback when it gets a channel: nothing is written
    before the callback, exactly the payload has been written at any moment
    after it, and over any events at all the payload is never written
    twice. *)
Theorem exec_stdin_written_once
    (cmd : string) (o : Options) (data : Js.Payload)
    (pre mid evs : list Event) (err : option Js.Error) (ch : ClientChannel) :
  stdin o = Some data -> Js.truthy_payload data = true ->
  no_callback pre = true ->
  stdinEnded (exec cmd o pre) = [] /\
  stdinEnded (exec cmd o (pre ++ ExecCallback err (Some ch) :: mid)) = [data] /\
  (stdinEnded (exec cmd o evs) = [] \/ stdinEnded (exec cmd o evs) = [data]).
Proof.
  intros Hin Htr Hpre.
  pose proof (run_unopened o pre _ (executor_unopened cmd o) Hpre) as U.
  split; [apply U|]. split.
  - now apply stdin_ended_after_open.
  - destruct (run_stdinEnded o evs data (executor cmd o) Hin Htr) as [H|(H & _)];
      auto.
Qed.

Lemma exec_stdin_written_once_witness :
  let o := mkOptions (Some (Js.Buffer [])) None None in
  stdinEnded
    (exec "cat" o ([TimerFires] ++ ExecCallback None (Some Channel) ::
                     [StdinFlushed; Exit (Some 0)])) = [Js.Buffer []].
Proof.
  intros o.
  exact (proj1 (proj2
           (exec_stdin_written_once "cat" o (Js.Buffer []) [TimerFires]
              [StdinFlushed; Exit (Some 0)] [] None Channel
              eq_refl eq_refl eq_refl))).
Defined.

Lemma timer_fires_clears o s : pendingTimer (deliver o s TimerFires) = None.
Proof.
  destruct s; callbacks; cbn. destruct pendingTimer0; cbn; auto.
  destruct settled0; reflexivity.
Qed.

Lemma deliver_stranded o t s ev :
  stranded t s -> stranded t (deliver o s ev).
Proof.
  intros (H1 & H2 & H3 & H4 & H5 & H).
  destruct s; cbn in *; subst. unfold stranded.
  destruct ev; callbacks; cbn; auto 10.
  destruct H as [(-> & -> & ->) | (-> & -> & ->)]; cbn; auto 10.
Qed.

Lemma run_stranded o t evs : forall s,
  stranded t s -> stranded t (run o s evs).
Proof.
  induction evs as [|ev evs IH]; intros s H; [exact H|].
  rewrite run_cons. now apply IH, deliver_stranded.
Qed.

Lemma stranded_fired t s :
  stranded t s -> pendingTimer s = None ->
  settlements s = [Reject (Js.Err (timeout_message t))].
Proof.
  intros (_ & _ & _ & _ & _ & [(H & _) | (_ & _ & H)]) Hp; [congruence|exact H].
Qed.

(** X7. When the channel cannot be opened and a timeout is configured, the
    invocation is rejected only when the timer fires, and then with the
    timeout message, not with the transport's error: until then nothing is
    settled, and once the timer has fired the timeout failure is the one
    settlement, whatever else is delivered. *)
Theorem exec_open_failure_ends_in_timeout
    (cmd : string) (o : Options) (t : Z) (e : Js.Error)
    (mid post : list Event) :
  timeout o = Some t -> Js.truthy_number t = true ->
  let failed := ExecCallback (Some e) None in
  (forallb is_quiet mid = true ->
   settlements (exec cmd o (failed :: mid)) = []) /\
  settlements (exec cmd o (failed :: mid ++ TimerFires :: post)) =
    [Reject (Js.Err (timeout_message t))].
Proof.
  intros Ht Htr failed. split.
  - intros Hq. apply (quiet_events_settle_nothing cmd o (failed :: mid)).
    cbn. exact Hq.
  - assert (S1 : stranded t (deliver o (executor cmd o) failed)).
    { unfold stranded, executor. cbn. rewrite Ht. cbn. rewrite Htr. auto 10. }
    unfold exec. rewrite run_cons, run_app, run_cons.
    apply (stranded_fired t).
    + apply run_stranded, deliver_stranded, run_stranded, S1.
    + apply run_timer_gone, timer_fires_clears.
Qed.

Lemma exec_open_failure_ends_in_timeout_witness :
  settlements
    (exec "ls" sample_options
       (ExecCallback (Some (Js.Err "open failed")) None ::
          [Exit (Some 0); StdoutData "x"] ++ TimerFires :: [Exit (Some 0)])) =
  [Reject (Js.Err (timeout_message 100))].
Proof.
  exact (proj2
           (exec_open_failure_ends_in_timeout "ls" sample_options 100
              (Js.Err "open failed") [Exit (Some 0); StdoutData "x"]
              [Exit (Some 0)] eq_refl eq_refl)).
Defined.

(** X8. The data listeners stay registered after the exit event: chunks that
    arrive later are still appended to the buffers, but the result handed
    to [resolve] at the exit event holds only what had arrived by then. *)
Theorem exec_late_output_not_in_result
    (cmd : string) (o : Options) (pre mid post : list Event)
    (err : option Js.Error) (ch : ClientChannel) (c : option Z) :
  no_callback pre = true ->
  let s := exec cmd o (pre ++ ExecCallback err (Some ch) :: mid) in
  settled s = false -> stdinDone s = true ->
  (Js.truthy_opt_bool (throwOnNonZero o) && Js.truthy_opt_number c) = false ->
  let s' := run o s (Exit c :: post) in
  stdout s' = join (stdout_chunks mid) +:+ join (stdout_chunks post) /\
  stderr s' = join (stderr_chunks mid) +:+ join (stderr_chunks post) /\
  settlements s' =
    [Resolve {| ExecResult.code := Js.or_zero c;
                ExecResult.stdout := join (stdout_chunks mid);
                ExecResult.stderr := join (stderr_chunks mid) |}].
Proof.
  intros Hpre s Hs Hd Hn s'.
  pose proof (exec_invariant cmd o (pre ++ ExecCallback err (Some ch) :: mid)) as I.
  fold s in I.
  destruct (exec_opened cmd o pre err ch mid Hpre) as (L & Ho & He & _).
  fold s in L, Ho, He.
  destruct (run_listening o (Exit c :: post) s L) as (_ & Ho' & He' & _).
  fold s' in Ho', He'.
  assert (Hl : exitListener s = true) by apply L.
  destruct (exit_success o c s Hl Hs Hd Hn) as (Hst & Hx).
  repeat split.
  - rewrite Ho', Ho. reflexivity.
  - rewrite He', He. reflexivity.
  - unfold s'. rewrite run_cons.
    destruct (run_settled o post _ Hst) as (_ & -> & _).
    now rewrite Hx, (unsettled_nothing o s I Hs), Ho, He.
Qed.

Lemma exec_late_output_not_in_result_witness :
  let o := mkOptions None None None in
  let s := exec "make" o ([] ++ ExecCallback None (Some Channel) :: [StdoutData "a"]) in
  let s' := run o s (Exit (Some 0) :: [StdoutData "b"]) in
  stdout s' = join (stdout_chunks [StdoutData "a"]) +:+
              join (stdout_chunks [StdoutData "b"]) /\
  settlements s' =
    [Resolve {| ExecResult.code := Js.or_zero (Some 0);
                ExecResult.stdout := join (stdout_chunks [StdoutData "a"]);
                ExecResult.stderr := join (stderr_chunks [StdoutData "a"]) |}].
Proof.
  intros o s s'.
  assert (U : settled s = false) by (vm_compute; reflexivity).
  assert (D : stdinDone s = true) by (vm_compute; reflexivity).
  destruct (exec_late_output_not_in_result "make" o [] [StdoutData "a"]
              [StdoutData "b"] None Channel (Some 0) eq_refl U D eq_refl)
    as (H1 & _ & H3).
  split; [exact H1 | exact H3].
Defined.

End ExecMore.

(** * More properties of the connection bootstrap, and of the calls that
      use it *)

Section SessionFacts.
Import Client Session.

(** *** Counting the connection attempts *)

Lemma session_run_cons s a acts :
  Session.run s (a :: acts) = Session.run (Session.act s a) acts.
Proof. reflexivity. Qed.

Lemma session_act_invariant s a :
  Client.invariant (client s) -> Client.invariant (client (Session.act s a)).
Proof.
  intros I. destruct a as [a|]; cbn; [|exact I]. now apply act_invariant.
Qed.

Lemma attempts_formula acts : forall s,
  Client.invariant (client s) ->
  connectAttempts (client (Session.run s acts)) =
  (connectAttempts (client s) + explicit_connects acts +
   (if negb (connectStarted (client s)) && lazy_call_first acts then 1 else 0))%nat.
Proof.
  induction acts as [|a acts IH]; intros s I.
  - cbn. rewrite andb_false_r. lia.
  - rewrite session_run_cons, (IH _ (session_act_invariant s a I)).
    destruct a as [[| | | |err]|]; cbn.
    + rewrite andb_false_r. lia.
    + unfold connectIfNeeded.
      destruct (connectStarted (client s)) eqn:E; cbn; rewrite ?E; cbn; lia.
    + unfold connectIfNeeded.
      destruct (connectStarted (client s)) eqn:E; cbn; rewrite ?E; cbn; lia.
    + now rewrite emitReady_invariant.
    + now rewrite emitError_invariant.
    + reflexivity.
Qed.

(** X9. On a new client, after any history of calls of [connect], [exec],
    [putFile] and [close] and of transport events, the number of calls of
    [client.connect] is the number of calls of [connect()], plus one when
    [exec] or [putFile] was called before any [connect()]. So [connect()]
    always starts an attempt, also after a lazy one, and neither a failed
    attempt nor [close()] makes [exec] or [putFile] connect again. *)
Theorem connection_attempts_count (acts : list Session.Action) :
  connectAttempts (client (Session.run Session.fresh acts)) =
  (explicit_connects acts + (if lazy_call_first acts then 1 else 0))%nat.
Proof.
  rewrite attempts_formula by apply fresh_invariant. reflexivity.
Qed.

(** *** Settling the promises of [connect()] *)

Lemma settled_ids_emitted outcome msg s :
  Client.invariant s -> NoDup (settlements s).*1 ->
  NoDup (settlements (emitted outcome msg (readyListeners s) s)).*1.
Proof.
  intros I H. cbn. rewrite fmap_app, <- list_fmap_compose.
  apply NoDup_app. split; [exact H|]. split.
  - intros p Hp Hq.
    apply list_elem_of_fmap in Hp as ([p' x] & -> & Hp).
    apply list_elem_of_fmap in Hq as (q & E & Hq). cbn in E. subst q.
    now apply (inv_pending s I p' x Hq).
  - assert (E : (fst ∘ (fun p : nat => (p, outcome))) <$> readyListeners s
                = readyListeners s).
    { clear. induction (readyListeners s) as [|p l IH]; cbn; [reflexivity|].
      now rewrite IH. }
    rewrite E. apply I.
Qed.

Lemma settled_ids_act s a :
  Client.invariant s -> NoDup (settlements s).*1 ->
  NoDup (settlements (Client.act s a)).*1.
Proof.
  intros I H. destruct a; cbn; auto.
  - unfold connectIfNeeded. now destruct (connectStarted s).
  - unfold connectIfNeeded. now destruct (connectStarted s).
  - rewrite emitReady_invariant by exact I. now apply settled_ids_emitted.
  - rewrite emitError_invariant by exact I. now apply settled_ids_emitted.
Qed.

Lemma settled_ids_run acts : forall s,
  Client.invariant s -> NoDup (settlements s).*1 ->
  NoDup (settlements (Client.run s acts)).*1.
Proof.
  induction acts as [|a acts IH]; intros s I H; [exact H|].
  rewrite client_run_cons.
  apply IH; [now apply act_invariant | now apply settled_ids_act].
Qed.

Lemma one_outcome_per_id (p : nat) (l : list (nat * Outcome)) :
  NoDup l.*1 -> (length (filter (fun x => fst x = p) l) <= 1)%nat.
Proof.
  induction l as [|[q x] l IH]; intros H; [cbn; lia|].
  cbn in H. apply NoDup_cons in H as [Hq H].
  destruct (decide (q = p)) as [->|Hne].
  - rewrite filter_cons_True by reflexivity. cbn.
    destruct (filter (fun x => fst x = p) l) as [|[q' x'] l'] eqn:E; [cbn; lia|].
    exfalso. apply Hq.
    assert (Hin : (q', x') ∈ filter (fun x => fst x = p) l) by (rewrite E; left).
    apply list_elem_of_filter in Hin as [Hq' Hin]. cbn in Hq'. subst q'.
    apply list_elem_of_fmap. now exists (p, x').
  - rewrite filter_cons_False by (cbn; congruence). now apply IH.
Qed.

(** X10. No promise of [connect()] is settled twice: over any history of calls
    and transport events on a new client, [resolve] and [reject] of a given
    promise are called at most once in total. *)
Theorem connect_promise_settled_at_most_once
    (acts : list Client.Action) (p : nat) :
  (length (outcomes p (Client.run Client.fresh acts)) <= 1)%nat.
Proof.
  unfold outcomes. rewrite length_map. apply one_outcome_per_id.
  apply settled_ids_run; [apply fresh_invariant | constructor].
Qed.

(** X11. One transport event settles every promise that is still pending: on any
    reachable client, [ready] resolves the promises of all the [connect()]
    calls not yet settled, in the order of the calls, and [error] rejects
    them all with the same wrapped error; afterwards no listener is left on
    either event. *)
Theorem transport_event_settles_all_pending
    (acts : list Client.Action) (err : Js.Error) :
  let s := Client.run Client.fresh acts in
  (settlements (emitReady s) =
     settlements s ++ map (fun p => (p, Resolved)) (readyListeners s) /\
   readyListeners (emitReady s) = [] /\ errorListeners (emitReady s) = []) /\
  (settlements (emitError err s) =
     settlements s ++
     map (fun p => (p, Rejected (Js.VError err connect_failed))) (errorListeners s) /\
   readyListeners (emitError err s) = [] /\ errorListeners (emitError err s) = []).
Proof.
  intros s.
  pose proof (client_run_invariant acts Client.fresh fresh_invariant) as I.
  fold s in I.
  rewrite emitReady_invariant, emitError_invariant by exact I.
  rewrite (inv_same s I). cbn. auto.
Qed.

(** *** [exec] and [putFile] behind [connectIfNeeded] *)

(** A promise that listens when the first transport event arrives gets that
    event's outcome, for good. *)
Lemma pending_settles_with_emit (w : Client.State) (p : nat)
    (outcome : Outcome) (msg : string) (rest : list Client.Action) :
  Client.invariant w -> p ∈ readyListeners w ->
  outcomes p (Client.run (emitted outcome msg (readyListeners w) w) rest)
  = [outcome].
Proof.
  intros Iw Hp.
  assert (R : retired p (emitted outcome msg (readyListeners w) w)).
  { unfold retired; cbn. split; [now apply (inv_listener_bound w Iw)|].
    auto using not_elem_of_nil. }
  destruct (run_keeps_retired p rest _ (emitted_invariant outcome msg w Iw) R)
    as (_ & ->).
  unfold outcomes at 1. cbn [settlements emitted]. rewrite outcomes_app.
  rewrite (outcomes_pending p w Iw Hp).
  apply outcomes_of_emit_in; [apply Iw | exact Hp].
Qed.

Lemma lazy_connect_awaited (c0 : Client.State) (calls : list Client.Action) :
  Client.invariant c0 -> connectStarted c0 = false ->
  no_transport_event calls = true ->
  let p := connectAttempts c0 in
  let w := Client.run (snd (connectIfNeeded c0)) calls in
  fst (connectIfNeeded c0) = Some p /\
  Client.invariant w /\ p ∈ readyListeners w /\ outcomes p w = [].
Proof.
  intros I0 Hs Hcalls p w.
  assert (E : connectIfNeeded c0 = (Some p, snd (connect c0)))
    by (unfold connectIfNeeded; now rewrite Hs).
  assert (Iw : Client.invariant w).
  { unfold w. rewrite E. now apply client_run_invariant, connect_invariant. }
  assert (Hp : p ∈ readyListeners w).
  { unfold w. rewrite E. apply calls_keep_pending; [exact Hcalls|].
    cbn. apply elem_of_app. right. now left. }
  split; [now rewrite E|]. split; [exact Iw|]. split; [exact Hp|].
  now apply outcomes_pending.
Qed.

Lemma run_then_event (c : Client.State) (calls rest : list Client.Action)
    (ev : Client.Action) :
  Client.run c (calls ++ ev :: rest) =
  Client.run (Client.act (Client.run c calls) ev) rest.
Proof. now rewrite client_run_app, client_run_cons. Qed.

(** X12. The first [exec] on a client with no attempt started waits for the
    attempt it starts: until a transport event arrives it stays suspended,
    with no invocation made (no timer, no command sent); if the first event
    is [ready], the executor then runs; if it is [error], [exec] is rejected
    with the wrapped transport error and no invocation is ever made. *)
Theorem exec_follows_connection_attempt
    (cmd : string) (o : Exec.Options) (before calls rest : list Client.Action) :
  let c0 := Client.run Client.fresh before in
  connectStarted c0 = false ->
  no_transport_event calls = true ->
  let call := fst (exec_begin cmd o c0) in
  let c1 := snd (exec_begin cmd o c0) in
  call = AwaitsConnect (connectAttempts c0) /\
  exec_resume cmd o call (Client.run c1 calls) = call /\
  exec_resume cmd o call (Client.run c1 (calls ++ EmitReady :: rest)) =
    Invoked (Exec.executor cmd o) /\
  (forall err,
     exec_resume cmd o call (Client.run c1 (calls ++ EmitError err :: rest)) =
       ConnectRejected (Js.VError err connect_failed)).
Proof.
  intros c0 Hs Hcalls call c1.
  pose proof (client_run_invariant before Client.fresh fresh_invariant) as I0.
  fold c0 in I0.
  destruct (lazy_connect_awaited c0 calls I0 Hs Hcalls) as (E & Iw & Hp & Hn).
  assert (Ec : call = AwaitsConnect (connectAttempts c0)).
  { unfold call, exec_begin. destruct (connectIfNeeded c0) as [[q|] c'];
      cbn in E |- *; congruence. }
  assert (E1 : c1 = snd (connectIfNeeded c0)).
  { unfold c1, exec_begin. now destruct (connectIfNeeded c0) as [[q|] c']. }
  rewrite <- E1 in Iw, Hp, Hn. clearbody call c1. subst call.
  split; [reflexivity|]. split; [|split].
  - unfold exec_resume, promise_state. now rewrite Hn.
  - rewrite run_then_event. change (Client.act ?s EmitReady) with (emitReady s).
    rewrite emitReady_invariant by exact Iw.
    unfold exec_resume, promise_state.
    now rewrite (pending_settles_with_emit _ _ _ _ rest Iw Hp).
  - intros err. rewrite run_then_event.
    change (Client.act ?s (EmitError err)) with (emitError err s).
    rewrite emitError_invariant by exact Iw.
    unfold exec_resume, promise_state.
    now rewrite (pending_settles_with_emit _ _ _ _ rest Iw Hp).
Qed.

Lemma exec_follows_connection_attempt_witness :
  exec_resume "ls" Exec.sample_options
    (fst (exec_begin "ls" Exec.sample_options (Client.run Client.fresh [])))
    (Client.run (snd (exec_begin "ls" Exec.sample_options (Client.run Client.fresh [])))
       ([CallPutFile] ++ EmitError (Js.Err "refused") :: [EmitReady])) =
  ConnectRejected (Js.VError (Js.Err "refused") connect_failed).
Proof.
  destruct (exec_follows_connection_attempt "ls" Exec.sample_options
              [] [CallPutFile] [EmitReady] eq_refl eq_refl) as (_ & _ & _ & H).
  exact (H (Js.Err "refused")).
Defined.

Lemma started_stays (acts : list Client.Action) : forall s,
  Client.invariant s -> connectStarted s = true ->
  connectStarted (Client.run s acts) = true.
Proof.
  induction acts as [|a acts IH]; intros s I H; [exact H|].
  rewrite client_run_cons. apply IH; [now apply act_invariant|].
  destruct a; cbn; auto.
  - unfold connectIfNeeded. now rewrite H.
  - unfold connectIfNeeded. now rewrite H.
  - now rewrite emitReady_invariant.
  - now rewrite emitError_invariant.
Qed.

Lemma started_after_call (acts : list Client.Action) : forall s,
  Client.invariant s ->
  existsb (fun a => negb (is_transport_event a)) acts = true ->
  connectStarted (Client.run s acts) = true.
Proof.
  induction acts as [|a acts IH]; intros s I H; [discriminate|].
  rewrite client_run_cons. cbn in H.
  destruct (is_transport_event a) eqn:Ea; cbn in H.
  - apply IH; [now apply act_invariant | exact H].
  - apply started_stays; [now apply act_invariant|].
    destruct a; try discriminate; cbn; auto;
      unfold connectIfNeeded; destruct (connectStarted s) eqn:E; cbn; auto.
Qed.

(** X13. Any caller after the first does not wait for the connection: once some
    call has started an attempt, a call of [exec] makes its invocation at
    once (timer armed, command handed to the transport) and a call of
    [putFile] requests the sftp channel at once, leaving the client as it
    is, whether the attempt is still in flight, has succeeded or has
    failed. *)
Theorem later_callers_do_not_wait
    (cmd : string) (o : Exec.Options) (acts : list Client.Action) :
  existsb (fun a => negb (is_transport_event a)) acts = true ->
  let c := Client.run Client.fresh acts in
  exec_begin cmd o c = (Invoked (Exec.executor cmd o), c) /\
  putFile_begin c = (request_sftp, c).
Proof.
  intros H c.
  pose proof (started_after_call acts Client.fresh fresh_invariant H) as Hs.
  fold c in Hs. unfold exec_begin, putFile_begin, connectIfNeeded.
  now rewrite Hs.
Qed.

Lemma later_callers_do_not_wait_witness :
  let c := Client.run Client.fresh [CallExec] in
  promise_state 0 c = None /\
  exec_begin "ls" Exec.sample_options c =
    (Invoked (Exec.executor "ls" Exec.sample_options), c).
Proof.
  intros c. split; [reflexivity|].
  exact (proj1 (later_callers_do_not_wait "ls" Exec.sample_options [CallExec] eq_refl)).
Defined.

(** *** [putFile] *)

Lemma putFile_run_cons l r f ev evs :
  putFile_run l r f (ev :: evs) = putFile_run l r (putFile_deliver l r f ev) evs.
Proof. reflexivity. Qed.

Lemma putFile_run_app l r f evs1 evs2 :
  putFile_run l r f (evs1 ++ evs2) = putFile_run l r (putFile_run l r f evs1) evs2.
Proof. apply fold_left_app. Qed.

Lemma putFile_settled_stays l r evs : forall f,
  put_settled f = true -> putFile_run l r f evs = f.
Proof.
  induction evs as [|ev evs IH]; intros f H; [reflexivity|].
  rewrite putFile_run_cons.
  assert (E : putFile_deliver l r f ev = f).
  { unfold putFile_deliver. unfold put_settled in H.
    destruct (phase f); try discriminate; now destruct ev. }
  rewrite E. now apply IH.
Qed.

Lemma putFile_skips l r evs (skip : PutEvent -> bool) : forall f,
  (forall ev, skip ev = false -> putFile_deliver l r f ev = f) ->
  forallb (fun ev => negb (skip ev)) evs = true ->
  putFile_run l r f evs = f.
Proof.
  induction evs as [|ev evs IH]; intros f Hf H; [reflexivity|].
  cbn in H. apply andb_true_iff in H as [Hev H].
  rewrite putFile_run_cons, Hf by now destruct (skip ev). now apply IH.
Qed.

Lemma awaiting_sftp_skips l r f ev :
  phase f = PutAwaitsSftp -> is_sftp_callback ev = false ->
  putFile_deliver l r f ev = f.
Proof.
  intros H Hev. unfold putFile_deliver. rewrite H. now destruct ev.
Qed.

Lemma awaiting_fastPut_skips l r f ev :
  phase f = PutAwaitsFastPut -> is_fastPut_callback ev = false ->
  putFile_deliver l r f ev = f.
Proof.
  intros H Hev. unfold putFile_deliver. rewrite H. now destruct ev.
Qed.

(** X14. When the sftp channel cannot be opened, [putFile] is rejected with the
    transport's error and [fastPut] is never called: nothing is transferred,
    whatever is delivered afterwards. *)
Theorem putFile_sftp_failure_propagates
    (localPath remotePath : string) (pre post : list PutEvent)
    (err : Js.Error) (sftp : option SFTPWrapper) :
  forallb (fun ev => negb (is_sftp_callback ev)) pre = true ->
  putFile_run localPath remotePath request_sftp
    (pre ++ SftpCallback (Some err) sftp :: post) =
  {| phase := PutRejected err; sftpCalls := 1; fastPutCalls := [] |}.
Proof.
  intros Hpre. rewrite putFile_run_app, putFile_run_cons.
  rewrite (putFile_skips _ _ pre is_sftp_callback) by
    (auto; intros ev Hev; now apply awaiting_sftp_skips).
  now apply putFile_settled_stays.
Qed.

Lemma putFile_sftp_failure_propagates_witness :
  putFile_run "a.txt" "/tmp/a.txt" request_sftp
    ([FastPutCallback None] ++ SftpCallback (Some (Js.Err "denied")) None ::
       [SftpCallback None (Some Sftp); FastPutCallback None]) =
  {| phase := PutRejected (Js.Err "denied"); sftpCalls := 1; fastPutCalls := [] |}.
Proof.
  exact (putFile_sftp_failure_propagates "a.txt" "/tmp/a.txt"
           [FastPutCallback None] [SftpCallback None (Some Sftp); FastPutCallback None]
           (Js.Err "denied") None eq_refl).
Defined.

(** X15. Once the sftp channel is open, [putFile] calls [fastPut] once, with the
    paths it was given, and its outcome is that of the transfer: resolved
    when the [fastPut] callback reports no error, rejected with its error
    otherwise; nothing delivered later changes it. *)
Theorem putFile_outcome_is_transfer_outcome
    (localPath remotePath : string) (pre mid post : list PutEvent)
    (res : option Js.Error) :
  forallb (fun ev => negb (is_sftp_callback ev)) pre = true ->
  forallb (fun ev => negb (is_fastPut_callback ev)) mid = true ->
  putFile_run localPath remotePath request_sftp
    (pre ++ SftpCallback None (Some Sftp) :: mid ++ FastPutCallback res :: post) =
  {| phase := match res with Some err => PutRejected err | None => PutResolved end;
     sftpCalls := 1;
     fastPutCalls := [(localPath, remotePath)] |}.
Proof.
  intros Hpre Hmid.
  rewrite putFile_run_app, putFile_run_cons, putFile_run_app, putFile_run_cons.
  rewrite (putFile_skips _ _ pre is_sftp_callback) by
    (auto; intros ev Hev; now apply awaiting_sftp_skips).
  cbn [putFile_deliver request_sftp phase sftpCalls fastPutCalls app].
  rewrite (putFile_skips _ _ mid is_fastPut_callback) by
    (auto; intros ev Hev; now apply awaiting_fastPut_skips).
  rewrite putFile_settled_stays; now destruct res.
Qed.

Lemma putFile_outcome_is_transfer_outcome_witness :
  putFile_run "a.txt" "/tmp/a.txt" request_sftp
    ([] ++ SftpCallback None (Some Sftp) :: [SftpCallback None None] ++
       FastPutCallback (Some (Js.Err "disk full")) :: [FastPutCallback None]) =
  {| phase := PutRejected (Js.Err "disk full"); sftpCalls := 1;
     fastPutCalls := [("a.txt", "/tmp/a.txt")] |}.
Proof.
  exact (putFile_outcome_is_transfer_outcome "a.txt" "/tmp/a.txt" []
           [SftpCallback None None] [FastPutCallback None]
           (Some (Js.Err "disk full")) eq_refl eq_refl).
Defined.

(** X16. The first [putFile] on a client with no attempt started waits for the
    attempt: while it is in flight no sftp channel is requested; on [ready]
    the channel is requested; on [error] [putFile] is rejected with the
    wrapped transport error without ever requesting a channel. *)
Theorem putFile_follows_connection_attempt
    (before calls rest : list Client.Action) :
  let c0 := Client.run Client.fresh before in
  connectStarted c0 = false ->
  no_transport_event calls = true ->
  let f := fst (putFile_begin c0) in
  let c1 := snd (putFile_begin c0) in
  phase f = PutAwaitsConnect (connectAttempts c0) /\ sftpCalls f = 0%nat /\
  putFile_resume f (Client.run c1 calls) = f /\
  putFile_resume f (Client.run c1 (calls ++ EmitReady :: rest)) = request_sftp /\
  (forall err,
     putFile_resume f (Client.run c1 (calls ++ EmitError err :: rest)) =
       {| phase := PutRejected (Js.VError err connect_failed);
          sftpCalls := 0; fastPutCalls := [] |}).
Proof.
  intros c0 Hs Hcalls f c1.
  pose proof (client_run_invariant before Client.fresh fresh_invariant) as I0.
  fold c0 in I0.
  destruct (lazy_connect_awaited c0 calls I0 Hs Hcalls) as (E & Iw & Hp & Hn).
  assert (Ef : f = {| phase := PutAwaitsConnect (connectAttempts c0);
                      sftpCalls := 0; fastPutCalls := [] |}).
  { unfold f, putFile_begin. destruct (connectIfNeeded c0) as [[q|] c'];
      cbn in E |- *; congruence. }
  assert (E1 : c1 = snd (connectIfNeeded c0)).
  { unfold c1, putFile_begin. now destruct (connectIfNeeded c0) as [[q|] c']. }
  rewrite <- E1 in Iw, Hp, Hn. clearbody f c1. subst f.
  split; [reflexivity|]. split; [reflexivity|]. split; [|split].
  - unfold putFile_resume, promise_state; cbn [phase]. now rewrite Hn.
  - rewrite run_then_event. change (Client.act ?s EmitReady) with (emitReady s).
    rewrite emitReady_invariant by exact Iw.
    unfold putFile_resume, promise_state; cbn [phase].
    now rewrite (pending_settles_with_emit _ _ _ _ rest Iw Hp).
  - intros err. rewrite run_then_event.
    change (Client.act ?s (EmitError err)) with (emitError err s).
    rewrite emitError_invariant by exact Iw.
    unfold putFile_resume, promise_state; cbn [phase].
    now rewrite (pending_settles_with_emit _ _ _ _ rest Iw Hp).
Qed.

Lemma putFile_follows_connection_attempt_witness :
  putFile_resume (fst (putFile_begin (Client.run Client.fresh [])))
    (Client.run (snd (putFile_begin (Client.run Client.fresh [])))
       ([] ++ EmitReady :: [EmitError (Js.Err "reset")])) = request_sftp.
Proof.
  destruct (putFile_follows_connection_attempt [] [] [EmitError (Js.Err "reset")]
              eq_refl eq_refl) as (_ & _ & _ & H & _).
  exact H.
Defined.

End SessionFacts.

(** * More properties of [execScript] *)

Section ScriptMore.
Import Script.

Lemma deliver_command o s ev : Exec.command (Exec.deliver o s ev) = Exec.command s.
Proof.
  destruct ev; destruct s;
    cbv [Exec.deliver Exec.run_callback Exec.onTimeout Exec.onExit
         Exec.cancelTimer Exec.settleOnExit Exec.onStdoutData Exec.onStderrData
         Exec.onStdinEnd Exec.execCallback Exec.member Exec.resultInfo
         mbind mret Exec.Body_bind Exec.Body_ret Exec.read Exec.update Exec.skip
         Exec.throw Exec.resolve Exec.reject Exec.log_debug Exec.clearTimeout];
    cbn.
  - destruct pendingTimer; cbn; auto. destruct settled; cbn; auto.
  - destruct callbackRan; auto.
    destruct channel; cbn; auto.
    destruct (Exec.stdin o) as [data|]; cbn; auto.
    destruct (Js.truthy_payload data); cbn; auto.
  - destruct stdoutListener; auto.
  - destruct stderrListener; auto.
  - destruct exitListener; auto. destruct timeoutId, settled; cbn; auto;
      destruct stdinDone; cbn; auto;
      destruct (Js.truthy_opt_bool (Exec.throwOnNonZero o) && Js.truthy_opt_number code);
      cbn; auto.
  - destruct stdinCallback; auto.
Qed.

Lemma run_command o evs : forall s,
  Exec.command (Exec.run o s evs) = Exec.command s.
Proof.
  induction evs as [|ev evs IH]; intros s; [reflexivity|].
  rewrite run_cons, IH. apply deliver_command.
Qed.

(** X17. [execScript] hands the transport the fixed command, [sudo bash -s] or
    [bash -s], and pipes the script once into the opened channel; an empty
    script is a falsy [stdin], so then nothing is written and the remote
    shell's input is never closed. *)
Theorem execScript_pipes_script_once
    (script : string) (obj : gmap string Value) (pre mid : list Exec.Event)
    (err : option Js.Error) (ch : Exec.ClientChannel) :
  Exec.no_callback pre = true ->
  let inv := execScript script obj (pre ++ Exec.ExecCallback err (Some ch) :: mid) in
  Exec.command inv =
    (if truthy (get obj "sudo") then "sudo bash -s" else "bash -s") /\
  Exec.stdinEnded inv =
    (if String.eqb script "" then [] else [Js.Text script]) /\
  (forall evs, Exec.stdinEnded (execScript "" obj evs) = []).
Proof.
  intros Hpre inv. split; [|split].
  - unfold inv, execScript, Exec.exec. rewrite run_command. cbn.
    now destruct (truthy (get obj "sudo")).
  - unfold inv, execScript. rewrite exec_options_of_script.
    destruct (String.eqb script "") eqn:E.
    + apply (Exec.inv_nowrite _ _ (exec_invariant _ _ _)). cbn. now rewrite E.
    + apply stdin_ended_after_open; [reflexivity | | exact Hpre].
      cbn. now rewrite E.
  - intros evs. unfold execScript. rewrite exec_options_of_script.
    now apply (Exec.inv_nowrite _ _ (exec_invariant _ _ _)).
Qed.

Lemma execScript_pipes_script_once_witness :
  Exec.stdinEnded
    (execScript "whoami" (to_object (mkOptions (Some true) None None))
       ([] ++ Exec.ExecCallback None (Some Exec.Channel) :: [Exec.StdinFlushed])) =
  (if String.eqb "whoami" "" then [] else [Js.Text "whoami"]).
Proof.
  exact (proj1 (proj2
           (execScript_pipes_script_once "whoami"
              (to_object (mkOptions (Some true) None None)) []
              [Exec.StdinFlushed] None Exec.Channel eq_refl))).
Defined.

End ScriptMore.
